(** * iwassistant: the guild assistant's dispatch and lifecycle core

    A shallow embedding of [GuildAssistant], [PlayableSpeechImpl] and [App]
    (TypeScript) and the properties of their command pipeline, speech
    generation, slash-command synchronisation and lifecycle.

    The TypeScript code is asynchronous and talks to collaborators that are
    not part of it (the Discord client, the datastore, the plugin hook bus,
    the speech engines).  It is embedded in a small state-and-exception monad
    over a _world_ made of
    - the mutable cells of the object at hand ([self]),
    - the [trace] of the calls the code issues to its collaborators, oldest
      first, and
    - an [oracle] that decides, call by call, whether a promise returned by a
      collaborator resolves or rejects.
    Promise-returning collaborator calls may reject; synchronous ones
    ([beep], [log.*], [emit], [clearTimeout], [data.get], [data.set]) are
    total.  An [await] is sequential composition, [try]/[catch] and
    [.catch(handler)] are [attempt]. *)

From Stdlib Require Import NArith Lia.
From stdpp Require Import base option list strings gmap.

Open Scope string_scope.
Open Scope list_scope.

(** ** Values shared by the three classes *)

(** A JavaScript error value. *)
Definition Error : Type := string.

(** The settled state of a promise (or the result of a [try] block). *)
Inductive Outcome (A : Type) : Type :=
| Resolved (a : A)
| Rejected (e : Error).
Arguments Resolved {A} a.
Arguments Rejected {A} e.

(** ['success' | 'failure'], the argument of [notify], [reply] and [beep]. *)
Inductive Result : Type := success | failure.

(** [enum CommandResultEmoji]. *)
Inductive CommandResultEmoji : Type := emoji_success | emoji_failure | emoji_forbidden.

Definition emoji_string (e : CommandResultEmoji) : string :=
  match e with
  | emoji_success => "✅"
  | emoji_failure => "⚠️"
  | emoji_forbidden => "🚫"
  end.

(** [CommandResultEmoji[result]]. *)
Definition result_emoji (r : Result) : string :=
  match r with
  | success => emoji_string emoji_success
  | failure => emoji_string emoji_failure
  end.

(** The text a result takes in a log line ([`... command ${result}: ...`]). *)
Definition result_name (r : Result) : string :=
  match r with success => "success" | failure => "failure" end.

(** [enum Status], in declaration order. *)
Inductive Status : Type := unready | preparing | ready | destroying | destroyed.

#[global] Instance Status_eq_dec : EqDecision Status.
Proof. solve_decision. Defined.

#[global] Instance Result_eq_dec : EqDecision Result.
Proof. solve_decision. Defined.

Inductive Level : Type := level_debug | level_info | level_warn | level_error.

(** The arguments of a logger call. *)
Inductive LogArg : Type :=
| Text (s : string)
| Options (o : gmap string string)
| Cause (e : Error).

(** The calls the code issues to its collaborators. *)
Inductive Action : Type :=
| Beep (result : Result)                  (* this.beep(result) *)
| InteractionReply (content : string)     (* source.reply(content), slash *)
| InteractionFollowUp (content : string)  (* source.followUp(emoji), slash *)
| InteractionFollowUpPayload (options : string) (* source.followUp(payload), slash *)
| MessageReact (emoji : string)           (* source.react(emoji), text *)
| MessageReply (options : string)         (* source.reply / message.reply *)
| DestinationSend (content : string)      (* source.destination.send, voice *)
| MembersFetch (id : string)              (* guild.members.fetch(id) *)
| Execute (command_id : string)           (* command.execute(event) *)
| Log (level : Level) (args : list LogArg)
| Hook (name : string)                    (* this.hook(name, ...) *)
| Emit (event : string) (cause : option Error)
| RestPut (body : string)                 (* guild.client.rest.put(route, { body }) *)
| TtsGenerate (text : string)             (* tts.generate(request) *)
| CreateEmptyAudioResource
| SttTranscribe                           (* stt.transcribe(request) *)
| AudioRead                               (* the engine reads request.audio *)
| FallbackVoice
| SetStatus (s : Status)                  (* this.#status = s *)
| Invoke (callee : string).               (* a subsystem's setup or teardown *)

(** ** The monad *)

Record World (S : Type) : Type := mkWorld {
  self : S;
  trace : list Action;
  oracle : list (option Error);
}.
Arguments mkWorld {S} self trace oracle.
Arguments self {S} w.
Arguments trace {S} w.
Arguments oracle {S} w.

Definition M (S A : Type) : Type := World S -> Outcome A * World S.

Definition ret {S A} (a : A) : M S A := fun w => (Resolved a, w).

Definition throw {S A} (e : Error) : M S A := fun w => (Rejected e, w).

Definition bind {S A B} (m : M S A) (k : A -> M S B) : M S B :=
  fun w =>
    match m w with
    | (Resolved a, w') => k a w'
    | (Rejected e, w') => (Rejected e, w')
    end.

(** [try { m } catch ...] and [m.catch(...)]: the outcome becomes a value;
    what [m] did before it failed stays done. *)
Definition attempt {S A} (m : M S A) : M S (Outcome A) :=
  fun w => let (o, w') := m w in (Resolved o, w').

Definition gets {S A} (f : S -> A) : M S A := fun w => (Resolved (f (self w)), w).

Definition modify {S} (f : S -> S) : M S unit :=
  fun w => (Resolved tt, mkWorld (f (self w)) (trace w) (oracle w)).

(** A synchronous collaborator call: recorded, never throws. *)
Definition emit {S} (a : Action) : M S unit :=
  fun w => (Resolved tt, mkWorld (self w) (trace w ++ [a]) (oracle w)).

Definition next_outcome (o : list (option Error)) : option Error :=
  match o with
  | [] => None
  | x :: _ => x
  end.

(** An awaited promise-returning collaborator call: recorded, and settled by
    the oracle ([None]: it resolves; [Some e]: it rejects with [e]; an
    exhausted oracle resolves everything). *)
Definition call {S} (a : Action) : M S unit :=
  fun w =>
    let w' := mkWorld (self w) (trace w ++ [a]) (tail (oracle w)) in
    match next_outcome (oracle w) with
    | None => (Resolved tt, w')
    | Some e => (Rejected e, w')
    end.

Declare Scope eff_scope.
Delimit Scope eff_scope with eff.
Notation "'let*' x ':=' m 'in' k" := (bind m (fun x => k))
  (at level 10, x name, m at level 100, k at level 200) : eff_scope.
Notation "m '>>' k" := (bind m (fun _ => k))
  (at level 60, right associativity) : eff_scope.
Open Scope eff_scope.

(** [promise.catch(this.log.error)] once the promise has settled. *)
Definition log_rejection {S A} (o : Outcome A) : M S unit :=
  match o with
  | Resolved _ => ret tt
  | Rejected e => emit (Log level_error [Cause e])
  end.

(** Running a computation for its final world. *)
Definition exec {S A} (m : M S A) (w : World S) : World S := snd (m w).

(** How many actions of a kind a trace holds. *)
Fixpoint count (p : Action -> bool) (t : list Action) : nat :=
  match t with
  | [] => 0
  | a :: t => (if p a then 1 else 0) + count p t
  end.

(** The statuses a trace assigns, in order. *)
Fixpoint statuses (t : list Action) : list Status :=
  match t with
  | [] => []
  | SetStatus st :: t => st :: statuses t
  | _ :: t => statuses t
  end.

(** Everything but a status write. *)
Definition is_work (a : Action) : bool :=
  match a with SetStatus _ => false | _ => true end.

(** The statuses an object has had, from its construction on. *)
Definition history {S} (w : World S) : list Status := unready :: statuses (trace w).

(** An object's status and the statuses it was assigned. *)
Definition lifecycle_view {S} (status_of : S -> Status) (w : World S) : Status * list Status :=
  (status_of (self w), statuses (trace w)).

(** A computation that neither reads its way past nor writes the status. *)
Definition stable {S A} (status_of : S -> Status) (m : M S A) : Prop :=
  forall w : World S, lifecycle_view status_of (snd (m w)) = lifecycle_view status_of w.

(** The assignments so far are the chain up to the current status. *)
Definition on_chain (v : Status * list Status) : Prop :=
  match fst v with
  | unready => snd v = []
  | preparing => snd v = [preparing]
  | ready => snd v = [preparing; ready]
  | destroying => snd v = [preparing; ready; destroying]
  | destroyed => snd v = [preparing; ready; destroying; destroyed]
  end.

(** ** PlayableSpeechImpl and GuildAssistant.createSpeech *)

Module PlayableSpeech.

Record TTSRequest : Type := { text : string; voice : string }.

Inductive Resource : Type :=
| EmptyAudio                       (* this.createEmptyAudioResource() *)
| Synthesized (request : TTSRequest).

(** [{ ...request, resource }]. *)
Record TTSResponse : Type := {
  response_text : string;
  response_voice : string;
  resource : Resource;
}.

Definition with_resource (request : TTSRequest) (r : Resource) : TTSResponse :=
  {| response_text := text request; response_voice := voice request; resource := r |}.

(** The mutable part of a [PlayableSpeechImpl]: [request] is read-only,
    [response] starts undefined. *)
Record PlayableSpeechImpl : Type := {
  request : TTSRequest;
  response : option TTSResponse;
}.

Definition set_response (r : TTSResponse) (s : PlayableSpeechImpl) : PlayableSpeechImpl :=
  {| request := request s; response := Some r |}.

Definition new_speech (req : TTSRequest) : PlayableSpeechImpl :=
  {| request := req; response := None |}.

(** [tts.generate(request)] of the bound engine. *)
Definition tts_generate (req : TTSRequest) : M PlayableSpeechImpl TTSResponse :=
  call (TtsGenerate (text req)) >>
  ret (with_resource req (Synthesized req)).

(** The generator closure [createSpeech] hands to the speech. *)
Definition generator (req : TTSRequest) : M PlayableSpeechImpl TTSResponse :=
  call (Hook "speak") >>
  if (String.length (text req) =? 0)%nat
  then emit CreateEmptyAudioResource >> ret (with_resource req EmptyAudio)
  else tts_generate req.

(** [PlayableSpeechImpl.generate], for the [#generator] the speech was
    constructed with. *)
Definition generate (generator : TTSRequest -> M PlayableSpeechImpl TTSResponse)
  : M PlayableSpeechImpl unit :=
  let* r := gets response in
  match r with
  | Some _ => ret tt
  | None =>
      let* req := gets request in
      let* o := attempt (generator req) in
      match o with
      | Resolved resp => modify (set_response resp) >> emit (Emit "ready" None)
      | Rejected e => emit (Emit "error" (Some e))
      end
  end.

(** [createSpeech(options)]: a fresh speech on [options.request]; its
    [generate] runs [generator]. *)
Definition createSpeech (req : TTSRequest) (o : list (option Error)) : World PlayableSpeechImpl :=
  mkWorld (new_speech req) [] o.

Definition speech_generate : M PlayableSpeechImpl unit := generate generator.

(** The events a speech has emitted, and the synthesis calls it has made. *)
Definition is_ready (a : Action) : bool :=
  match a with Emit "ready" _ => true | _ => false end.

Definition is_error (a : Action) : bool :=
  match a with Emit "error" _ => true | _ => false end.

Definition is_synthesis (a : Action) : bool :=
  match a with TtsGenerate _ => true | _ => false end.

End PlayableSpeech.

(** ** The command pipeline: GuildAssistant.run and its three paths *)

Module Commands.

Definition PermissionsString : Type := string.

(** A [GuildMember]: its id and [member.permissions.has]. *)
Record GuildMember : Type := {
  member_id : string;
  permissions_has : list PermissionsString -> bool;
}.

(** A [Message<true>] obtained from the platform. *)
Record Message : Type := { content : string }.

(** What a command's [execute(event)] does with the event it is given: it
    awaits [event.notify] and [event.reply] (seeing whether they resolved),
    awaits other work for some milliseconds, and finally returns or throws.
    [Return None] is a body that returns nothing. *)
Inductive Body : Type :=
| Return (v : option bool)
| Throw (e : Error)
| AwaitNotify (result : option Result) (k : Outcome unit -> Body)
| AwaitReply (options : string) (result : option Result) (k : Outcome Message -> Body)
| AwaitOther (ms : N) (k : Body).

(** [AttachedCommand] / [InterpretedCommand]; [command_options] is the
    [options] of an interpreted (text or voice) command. *)
Record Command : Type := {
  command_id : string;
  command_name : string;
  plugin_permissions : gmap string (list PermissionsString);
  command_options : gmap string string;
  execute : Body;
}.

(** [command.plugin.permissions[command.name] ?? []]. *)
Definition required_permissions (command : Command) : list PermissionsString :=
  default [] (plugin_permissions command !! command_name command).

(** [ChatInputCommandInteraction<'cached'>]; [source.replied] is mutable and
    lives in the invocation. *)
Record ChatInputCommandInteraction : Type := {
  user_id : string;
  interaction_channel : option string;
  options_data : list (string * string);
  interaction_member : GuildMember;
}.

(** [Message<true>] as a command source; [fetched_member] is the member
    [guild.members.fetch(author.id)] resolves to when it resolves. *)
Record TextMessage : Type := {
  author_id : string;
  message_member : option GuildMember;
  fetched_member : GuildMember;
}.

(** [RecognizableAudio<'guild'>]. *)
Record RecognizableAudio : Type := {
  audio_member : GuildMember;
}.

(** The acknowledgment timer of the slash path. *)
Inductive Timer : Type :=
| timer_unset
| timer_armed (deadline : N)
| timer_fired
| timer_cleared.

(** The mutable cells one invocation's closures share: [event.notified],
    [source.replied], the voice path's memoised [message], the timer and the
    clock (milliseconds). *)
Record Invocation : Type := {
  notified : bool;
  replied : bool;
  message : option Message;
  timer : Timer;
  now : N;
}.

Definition new_invocation : Invocation :=
  {| notified := false; replied := false; message := None;
     timer := timer_unset; now := 0%N |}.

Definition set_notified (b : bool) (s : Invocation) : Invocation :=
  {| notified := b; replied := replied s; message := message s;
     timer := timer s; now := now s |}.

Definition set_replied (b : bool) (s : Invocation) : Invocation :=
  {| notified := notified s; replied := b; message := message s;
     timer := timer s; now := now s |}.

Definition set_message (m : Message) (s : Invocation) : Invocation :=
  {| notified := notified s; replied := replied s; message := Some m;
     timer := timer s; now := now s |}.

Definition set_timer (t : Timer) (s : Invocation) : Invocation :=
  {| notified := notified s; replied := replied s; message := message s;
     timer := t; now := now s |}.

Definition advance (ms : N) (s : Invocation) : Invocation :=
  {| notified := notified s; replied := replied s; message := message s;
     timer := timer s; now := (now s + ms)%N |}.

(** [event.type]. *)
Inductive EventType : Type := slash | text | voice.

(** What the closures of an event capture besides the mutable cells. *)
Record EventContext : Type := {
  event_type : EventType;
  event_member_id : string;
  event_command_id : string;
}.

(** [source.reply(content)] on an interaction; discord.js sets
    [source.replied] once the reply went through. *)
Definition interaction_reply (c : string) : M Invocation unit :=
  call (InteractionReply c) >> modify (set_replied true).

(** *** slash *)

Definition slash_notify (result : Result) : M Invocation unit :=
  let* n := gets notified in
  if n then ret tt else
  modify (set_notified true) >>
  emit (Beep result) >>
  let emoji := result_emoji result in
  let* r := gets replied in
  if r then call (InteractionFollowUp emoji) else interaction_reply emoji.

Definition slash_reply (options : string) (result : Result) : M Invocation Message :=
  slash_notify result >>
  call (InteractionFollowUpPayload options) >>
  ret {| content := options |}.

(** *** text *)

Definition text_notify (result : Result) : M Invocation unit :=
  let* n := gets notified in
  if n then ret tt else
  modify (set_notified true) >>
  emit (Beep result) >>
  call (MessageReact (result_emoji result)).

Definition text_reply (options : string) (result : Result) : M Invocation Message :=
  text_notify result >>
  call (MessageReply options) >>
  ret {| content := options |}.

(** *** voice *)

(** [userMention(id)]. *)
Definition userMention (id : string) : string := "<@" +:+ id +:+ ">".

(** The local [notify] closure of [#runCommandByAudio], memoised on
    [message]. *)
Definition voice_message_notify (c : EventContext) (result : Result) : M Invocation Message :=
  let* m := gets message in
  match m with
  | Some msg => ret msg
  | None =>
      emit (Beep result) >>
      let emoji := result_emoji result in
      let sent := userMention (event_member_id c) +:+ " `/" +:+ event_command_id c +:+ "` " +:+ emoji in
      call (DestinationSend sent) >>
      modify (set_message {| content := sent |}) >>
      ret {| content := sent |}
  end.

Definition voice_notify (c : EventContext) (result : Result) : M Invocation unit :=
  let* n := gets notified in
  if n then ret tt else
  modify (set_notified true) >>
  voice_message_notify c result >>
  ret tt.

Definition voice_reply (c : EventContext) (options : string) (result : Result)
  : M Invocation Message :=
  voice_notify c result >>
  let* _m := voice_message_notify c result in
  call (MessageReply options) >>
  ret {| content := options |}.

(** *** The event handed to the command *)

(** [event.notify(result = 'success')]. *)
Definition event_notify (c : EventContext) (result : option Result) : M Invocation unit :=
  let result := default success result in
  match event_type c with
  | slash => slash_notify result
  | text => text_notify result
  | voice => voice_notify c result
  end.

(** [event.reply(options, result = 'success')]. *)
Definition event_reply (c : EventContext) (options : string) (result : option Result)
  : M Invocation Message :=
  let result := default success result in
  match event_type c with
  | slash => slash_reply options result
  | text => text_reply options result
  | voice => voice_reply c options result
  end.

(** The timer callback: [source.reply('...').catch(this.log.error)]. *)
Definition placeholder : M Invocation unit :=
  let* o := attempt (interaction_reply "...") in
  log_rejection o.

(** [ms] milliseconds go by; an armed timer whose deadline is reached fires. *)
Definition elapse (ms : N) : M Invocation unit :=
  modify (advance ms) >>
  let* t := gets timer in
  let* n := gets now in
  match t with
  | timer_armed deadline =>
      if (deadline <=? n)%N
      then modify (set_timer timer_fired) >> placeholder
      else ret tt
  | _ => ret tt
  end.

(** [setTimeout(callback, ms)]. *)
Definition setTimeout (ms : N) : M Invocation unit :=
  let* n := gets now in
  modify (set_timer (timer_armed (n + ms)%N)).

(** [clearTimeout(timer)]: only a timer that has not fired is cancelled. *)
Definition clearTimeout : M Invocation unit :=
  let* t := gets timer in
  match t with
  | timer_armed _ => modify (set_timer timer_cleared)
  | _ => ret tt
  end.

(** [await command.execute(event)]. *)
Fixpoint run_body (c : EventContext) (b : Body) : M Invocation (option bool) :=
  match b with
  | Return v => ret v
  | Throw e => throw e
  | AwaitNotify result k =>
      let* o := attempt (event_notify c result) in run_body c (k o)
  | AwaitReply options result k =>
      let* o := attempt (event_reply c options result) in run_body c (k o)
  | AwaitOther ms k =>
      elapse ms >> run_body c k
  end.

Definition command_execute (c : EventContext) (command : Command) : M Invocation (option bool) :=
  emit (Execute (command_id command)) >>
  run_body c (execute command).

(** [(await command.execute(event)) === false ? 'failure' : 'success']. *)
Definition to_result (v : option bool) : Result :=
  match v with
  | Some false => failure
  | _ => success
  end.

(** [Object.fromEntries(entries)]: a later entry overrides an earlier one. *)
Definition fromEntries (entries : list (string * string)) : gmap string string :=
  list_to_map (reverse entries).

(** The [.catch] handler's reply on the slash path:
    [if (!source.replied) source.reply(CommandResultEmoji.failure)]. *)
Definition reply_failure_unless_replied : M Invocation (Outcome unit) :=
  let* r := gets replied in
  if r then ret (Resolved tt)
  else attempt (interaction_reply (emoji_string emoji_failure)).

(** *** #runCommandByInteraction *)

Definition slash_log (source : ChatInputCommandInteraction) (command : Command)
  (result : string) : string :=
  "Slash command " +:+ result +:+ ": " +:+ user_id source +:+ " -> /" +:+ command_id command.

Definition slash_context (source : ChatInputCommandInteraction) (command : Command)
  : EventContext :=
  {| event_type := slash;
     event_member_id := member_id (interaction_member source);
     event_command_id := command_id command |}.

(** The body of the async function the method starts. *)
Definition slash_main (command : Command) (source : ChatInputCommandInteraction)
  : M Invocation unit :=
  let options := fromEntries (options_data source) in
  let c := slash_context source command in
  let* v := command_execute c command in
  let result := to_result v in
  clearTimeout >>
  let* n := attempt (event_notify c (Some result)) in
  emit (Log level_info [Text (slash_log source command (result_name result)); Options options]) >>
  log_rejection n.

(** Its [.catch((error) => ...)] handler. *)
Definition slash_catch (command : Command) (source : ChatInputCommandInteraction)
  (error : Error) : M Invocation unit :=
  let options := fromEntries (options_data source) in
  let* f := reply_failure_unless_replied in
  emit (Beep failure) >>
  emit (Log level_error [Text (slash_log source command "error"); Options options; Cause error]) >>
  log_rejection f.

Definition runCommandByInteraction (command : Command) (source : ChatInputCommandInteraction)
  : M Invocation unit :=
  match interaction_channel source with
  | None => ret tt
  | Some _ =>
      setTimeout 2500 >>
      let* o := attempt (slash_main command source) in
      match o with
      | Resolved _ => ret tt
      | Rejected error => slash_catch command source error
      end
  end.

(** *** #runCommandByMessage *)

Definition text_log (source : TextMessage) (command : Command) (result : string) : string :=
  "Text command " +:+ result +:+ ": " +:+ author_id source +:+ " -> /" +:+ command_id command.

Definition text_context (member : GuildMember) (command : Command) : EventContext :=
  {| event_type := text;
     event_member_id := member_id member;
     event_command_id := command_id command |}.

(** [source.member ?? (await this.guild.members.fetch(source.author.id))]. *)
Definition resolve_member (source : TextMessage) : M Invocation GuildMember :=
  match message_member source with
  | Some m => ret m
  | None => call (MembersFetch (author_id source)) >> ret (fetched_member source)
  end.

Definition text_main (command : Command) (source : TextMessage) : M Invocation unit :=
  let* member := resolve_member source in
  if negb (permissions_has member (required_permissions command)) then
    let* f := attempt (call (MessageReact (emoji_string emoji_forbidden))) in
    emit (Beep failure) >>
    emit (Log level_warn [Text (text_log source command "forbidden");
                          Options (command_options command)]) >>
    log_rejection f
  else
    let c := text_context member command in
    let* v := command_execute c command in
    let result := to_result v in
    let* n := attempt (event_notify c (Some result)) in
    emit (Log level_info [Text (text_log source command (result_name result));
                          Options (command_options command)]) >>
    log_rejection n.

Definition text_catch (command : Command) (source : TextMessage) (error : Error)
  : M Invocation unit :=
  let* f := attempt (call (MessageReact (emoji_string emoji_failure))) in
  emit (Beep failure) >>
  emit (Log level_error [Text (text_log source command "error");
                         Options (command_options command); Cause error]) >>
  log_rejection f.

Definition runCommandByMessage (command : Command) (source : TextMessage)
  : M Invocation unit :=
  let* o := attempt (text_main command source) in
  match o with
  | Resolved _ => ret tt
  | Rejected error => text_catch command source error
  end.

(** *** #runCommandByAudio *)

Definition voice_log (member : GuildMember) (command : Command) (result : string) : string :=
  "Voice command " +:+ result +:+ ": " +:+ member_id member +:+ " -> /" +:+ command_id command.

Definition voice_context (source : RecognizableAudio) (command : Command) : EventContext :=
  {| event_type := voice;
     event_member_id := member_id (audio_member source);
     event_command_id := command_id command |}.

Definition voice_main (command : Command) (source : RecognizableAudio) : M Invocation unit :=
  let c := voice_context source command in
  let* v := command_execute c command in
  let result := to_result v in
  let* n := attempt (event_notify c (Some result)) in
  emit (Log level_info [Text (voice_log (audio_member source) command (result_name result));
                        Options (command_options command)]) >>
  log_rejection n.

Definition voice_catch (command : Command) (source : RecognizableAudio) (error : Error)
  : M Invocation unit :=
  emit (Beep failure) >>
  emit (Log level_error [Text (voice_log (audio_member source) command "error");
                         Options (command_options command); Cause error]).

Definition runCommandByAudio (command : Command) (source : RecognizableAudio)
  : M Invocation unit :=
  let member := audio_member source in
  if negb (permissions_has member (required_permissions command)) then
    emit (Beep failure) >>
    emit (Log level_warn [Text (voice_log member command "forbidden");
                          Options (command_options command)])
  else
    let* o := attempt (voice_main command source) in
    match o with
    | Resolved _ => ret tt
    | Rejected error => voice_catch command source error
    end.

(** *** run *)

(** [options.type] with its source: ['interaction'], ['message'] or
    [undefined]. *)
Inductive Source : Type :=
| interaction (source : ChatInputCommandInteraction)
| by_message (source : TextMessage)
| by_audio (source : RecognizableAudio).

Definition run (command : Command) (source : Source) : M Invocation unit :=
  match source with
  | interaction s => runCommandByInteraction command s
  | by_message s => runCommandByMessage command s
  | by_audio s => runCommandByAudio command s
  end.

(** An invocation starts with nothing sent and the clock at zero. *)
Definition invoke (command : Command) (source : Source) (o : list (option Error))
  : World Invocation :=
  exec (run command source) (mkWorld new_invocation [] o).

(** *** Reading a trace *)

Definition is_emoji (s : string) : bool :=
  existsb (String.eqb s)
    [emoji_string emoji_success; emoji_string emoji_failure; emoji_string emoji_forbidden].

(** A result indicator shown to the user: an emoji reply, follow-up or
    reaction, or the voice path's mention message. *)
Definition is_indicator (a : Action) : bool :=
  match a with
  | InteractionReply c => is_emoji c
  | InteractionFollowUp c => is_emoji c
  | MessageReact c => is_emoji c
  | DestinationSend _ => true
  | _ => false
  end.

(** The audible cue. *)
Definition is_beep (a : Action) : bool :=
  match a with Beep _ => true | _ => false end.

Definition is_execute (a : Action) : bool :=
  match a with Execute _ => true | _ => false end.

Definition is_log (l : Level) (a : Action) : bool :=
  match a, l with
  | Log level_debug _, level_debug => true
  | Log level_info _, level_info => true
  | Log level_warn _, level_warn => true
  | Log level_error _, level_error => true
  | _, _ => false
  end.

(** What a command body's use of its event can add to the trace: cues,
    what is sent to the user, and the timer callback's error log. *)
Definition is_event_action (a : Action) : bool :=
  match a with
  | Beep _ | InteractionReply _ | InteractionFollowUp _ | InteractionFollowUpPayload _
  | MessageReact _ | MessageReply _ | DestinationSend _ => true
  | Log level_error [Cause _] => true
  | _ => false
  end.

(** The log line of a path, [log(result)] in each method. *)
Definition log_line (source : Source) (command : Command) (result : string) : string :=
  match source with
  | interaction s => slash_log s command result
  | by_message s => text_log s command result
  | by_audio s => voice_log (audio_member s) command result
  end.

(** The options each path logs. *)
Definition log_options (source : Source) (command : Command) : gmap string string :=
  match source with
  | interaction s => fromEntries (options_data s)
  | _ => command_options command
  end.

(** The member whose permissions a path checks, and the world once the
    member is known; the slash path has no check. *)
Definition member_check (source : Source) (w : World Invocation)
  : option (GuildMember * World Invocation) :=
  match source with
  | interaction _ => None
  | by_message s =>
      match resolve_member s w with
      | (Resolved m, w1) => Some (m, w1)
      | (Rejected _, _) => None
      end
  | by_audio s => Some (audio_member s, w)
  end.

(** The event context and the world in which [command.execute(event)] is
    called, when the path gets there. *)
Definition at_execute (command : Command) (source : Source) (w : World Invocation)
  : option (EventContext * World Invocation) :=
  match source with
  | interaction s =>
      match interaction_channel s with
      | None => None
      | Some _ => Some (slash_context s command, exec (setTimeout 2500) w)
      end
  | by_message s =>
      match resolve_member s w with
      | (Resolved m, w1) =>
          if permissions_has m (required_permissions command)
          then Some (text_context m command, w1) else None
      | (Rejected _, _) => None
      end
  | by_audio s =>
      if permissions_has (audio_member s) (required_permissions command)
      then Some (voice_context s command, w) else None
  end.

(** What each path's [.catch] handler sends to the user. *)
Definition catch_indicator (source : Source) (w : World Invocation) : list Action :=
  match source with
  | interaction _ =>
      if replied (self w) then [] else [InteractionReply (emoji_string emoji_failure)]
  | by_message _ => [MessageReact (emoji_string emoji_failure)]
  | by_audio _ => []
  end.

(** What each path sends to a member without the permissions. *)
Definition forbidden_indicator (source : Source) : list Action :=
  match source with
  | by_message _ => [MessageReact (emoji_string emoji_forbidden)]
  | _ => []
  end.

(** What a path does between the body's return and [event.notify(result)]. *)
Definition after_return (source : Source) : M Invocation unit :=
  match source with
  | interaction _ => clearTimeout
  | _ => ret tt
  end.

(** The call that carries a reply's payload. *)
Definition payload_action (c : EventContext) (options : string) : Action :=
  match event_type c with
  | slash => InteractionFollowUpPayload options
  | _ => MessageReply options
  end.

(** An event that has not notified has not sent the voice path's message. *)
Definition event_invariant (w : World Invocation) : Prop :=
  notified (self w) = false -> message (self w) = None.

(** [w'] extends the trace of [w] by event actions only. *)
Definition only_event_actions (w w' : World Invocation) : Prop :=
  exists d : list Action, trace w' = trace w ++ d /\ forallb is_event_action d = true.

(** The rejection of a detached promise is logged, if at all, last. *)
Definition rejection_log (tail : list Action) : Prop :=
  tail = [] \/ exists e : Error, tail = [Log level_error [Cause e]].

(** The calls a command body can make on its event, one after the other. *)
Inductive EventCall : Type :=
| Notify (result : option Result)
| Reply (options : string) (result : option Result)
| Wait (ms : N).

Definition perform (c : EventContext) (e : EventCall) : M Invocation unit :=
  match e with
  | Notify result => attempt (event_notify c result) >> ret tt
  | Reply options result => attempt (event_reply c options result) >> ret tt
  | Wait ms => elapse ms
  end.

Fixpoint perform_all (c : EventContext) (es : list EventCall) : M Invocation unit :=
  match es with
  | [] => ret tt
  | e :: es => perform c e >> perform_all c es
  end.

(** The event of an invocation after the calls [es]. *)
Definition event_after (c : EventContext) (es : list EventCall) (o : list (option Error))
  : World Invocation :=
  exec (perform_all c es) (mkWorld new_invocation [] o).

(** *** Sample invocations *)

(** A member who may view channels and send messages, nothing else. *)
Definition alice : GuildMember :=
  {| member_id := "42";
     permissions_has := forallb (fun p => bool_decide (p ∈ ["ViewChannel"; "SendMessages"])) |}.

(** The command [/ping] with a given body and required permissions. *)
Definition ping (body : Body) (required : list PermissionsString) : Command :=
  {| command_id := "ping"; command_name := "ping";
     plugin_permissions := {[ "ping" := required ]};
     command_options := ∅; execute := body |}.

Definition slash_source : ChatInputCommandInteraction :=
  {| user_id := "42"; interaction_channel := Some "general";
     options_data := []; interaction_member := alice |}.

Definition text_source : TextMessage :=
  {| author_id := "42"; message_member := Some alice; fetched_member := alice |}.

Definition voice_source : RecognizableAudio := {| audio_member := alice |}.

Definition start (o : list (option Error)) : World Invocation :=
  mkWorld new_invocation [] o.

End Commands.

(** ** GuildAssistant: lifecycle, slash-command synchronisation, transcribe *)

Module GuildAssistant.

Import Commands.

Definition LeastPermissions : list PermissionsString :=
  ["ViewChannel"; "SendMessages"; "EmbedLinks"; "AddReactions";
   "ManageMessages"; "ReadMessageHistory"; "Connect"; "Speak"].

(** The fields of a [GuildAssistant] the methods below read or write.
    [data] is the datastore's key-value content, [slash] is [options.slash]. *)
Record Assistant : Type := {
  status : Status;
  data : gmap string string;
  slash : bool;
  guild_id : string;
  self_member : GuildMember;
  requiredPermissions : list PermissionsString;
}.

Definition set_status (st : Status) (a : Assistant) : Assistant :=
  {| status := st; data := data a; slash := slash a; guild_id := guild_id a;
     self_member := self_member a; requiredPermissions := requiredPermissions a |}.

(** [this.data.set(key, value)]. *)
Definition data_set (key value : string) (a : Assistant) : Assistant :=
  {| status := status a; data := <[key := value]> (data a); slash := slash a;
     guild_id := guild_id a; self_member := self_member a;
     requiredPermissions := requiredPermissions a |}.

(** The constructor: [this.#status = Status.unready] and
    [requiredPermissions = new Set(LeastPermissions)]. *)
Definition constructor (self_member : GuildMember) (guild_id : string) (slash : bool)
  (data : gmap string string) : Assistant :=
  {| status := unready; data := data; slash := slash; guild_id := guild_id;
     self_member := self_member; requiredPermissions := LeastPermissions |}.

(** [this.#status = st]; the write is recorded in the trace. *)
Definition assign_status (st : Status) : M Assistant unit :=
  modify (set_status st) >> emit (SetStatus st).

Section Synchronisation.

(** The command definitions, their wire format and the digest are the
    platform library's and Node's: [serialize] is
    [JSON.stringify(slashCommands.map((c) => c.toJSON()))] and [md5] is
    [createHash('md5').update(...).digest('hex')]. *)
Variable SlashCommandBuilder : Type.
Variable serialize : list SlashCommandBuilder -> string.
Variable md5 : string -> string.

(** The part of [#updateSlashCommands] that follows the construction of
    [slashCommands]: the hook, the digest, the comparison with the persisted
    one, the registration call and the persisting. *)
Definition updateSlashCommands (slashCommands : list SlashCommandBuilder) : M Assistant unit :=
  call (Hook "commandsUpdate") >>
  let hash := md5 (serialize slashCommands) in
  let* d := gets data in
  if bool_decide (d !! "slash" = Some hash) then ret tt else
  call (RestPut (serialize slashCommands)) >>
  modify (data_set "slash" hash).

(** [[...this.requiredPermissions].filter((p) => !this.self.permissions.has(p))]. *)
Definition missingPermissions (a : Assistant) : list PermissionsString :=
  filter (fun p => permissions_has (self_member a) [p] = false) (requiredPermissions a).

(** [missingPermissions.join(', ')]. *)
Fixpoint join (sep : string) (l : list string) : string :=
  match l with
  | [] => ""
  | [x] => x
  | x :: l => x +:+ sep +:+ join sep l
  end.

(** [GuildAssistant.setup] (the optional [log.debug] lines left out). *)
Definition setup (slashCommands : list SlashCommandBuilder) : M Assistant unit :=
  let* st := gets status in
  if negb (bool_decide (st = unready)) then ret tt else
  assign_status preparing >>
  call (Invoke "data.setup") >>
  call (Hook "guildAssistantSetup") >>
  call (Invoke "attach") >>
  emit (Invoke "initializeAssistant") >>
  emit (Invoke "initializeEvents") >>
  let* use_slash := gets slash in
  (if use_slash then updateSlashCommands slashCommands else ret tt) >>
  let* id := gets guild_id in
  emit (Log level_info [Text ("Ready: " +:+ id)]) >>
  assign_status ready >>
  emit (Emit "ready" None) >>
  let* missing := gets missingPermissions in
  if (length missing =? 0)%nat then ret tt else
  emit (Log level_warn [Text ("Missing permission(s): " +:+ join ", " missing)]).

(** [GuildAssistant.destroy]. *)
Definition destroy : M Assistant unit :=
  let* st := gets status in
  if negb (bool_decide (st = ready)) then ret tt else
  assign_status destroying >>
  let* h := attempt (call (Hook "destroy")) in
  log_rejection h >>
  let* d := attempt (call (Invoke "data.destroy")) in
  log_rejection d >>
  emit (Invoke "voiceChannel.destroy") >>
  emit (Log level_info [Text "Destroyed"]) >>
  assign_status destroyed.

(** A caller's use of the two lifecycle methods. *)
Inductive LifecycleCall : Type :=
| call_setup (slashCommands : list SlashCommandBuilder)
| call_destroy.

Definition lifecycle (c : LifecycleCall) : M Assistant unit :=
  match c with
  | call_setup cs => attempt (setup cs) >> ret tt
  | call_destroy => attempt destroy >> ret tt
  end.

Fixpoint lifecycle_all (cs : list LifecycleCall) : M Assistant unit :=
  match cs with
  | [] => ret tt
  | c :: cs => lifecycle c >> lifecycle_all cs
  end.

End Synchronisation.

Arguments call_setup {SlashCommandBuilder} slashCommands.
Arguments call_destroy {SlashCommandBuilder}.

(** *** transcribe *)

(** What is installed as [request.audio.prepare]. *)
Inductive Prepare : Type :=
| prepare_unset
| prepare_hook.      (* async () => void (await this.hook('transcribe', request, stt)) *)

(** The mutable part of an [STTRequest]. *)
Record STTRequest : Type := { audio_prepare : Prepare }.

(** What an engine does with a request it was handed. *)
Inductive EngineStep : Type :=
| await_prepare      (* await request.audio.prepare() *)
| read_audio.        (* it consumes the audio resource *)

(** An [ISpeechToText]: whether [transcribe(request)] accepts, and what the
    engine then does with the request. *)
Record ISpeechToText : Type := {
  accepts : bool;
  work : list EngineStep;
}.

(** Calling [request.audio.prepare()]. *)
Definition run_prepare : M STTRequest unit :=
  let* p := gets audio_prepare in
  match p with
  | prepare_unset => ret tt
  | prepare_hook => call (Hook "transcribe")
  end.

Definition engine_step (s : EngineStep) : M STTRequest unit :=
  match s with
  | await_prepare => run_prepare
  | read_audio => emit AudioRead
  end.

Fixpoint engine_work (steps : list EngineStep) : M STTRequest unit :=
  match steps with
  | [] => ret tt
  | s :: steps => engine_step s >> engine_work steps
  end.

(** [stt.transcribe(request)]: the request is handed over, and the engine
    works on it (a failure inside the engine stays inside it). *)
Definition stt_transcribe (stt : ISpeechToText) : M STTRequest bool :=
  emit SttTranscribe >>
  attempt (engine_work (work stt)) >>
  ret (accepts stt).

(** [GuildAssistant.transcribe]; [stt] is what [engines.getSTT] returned. *)
Definition transcribe (stt : ISpeechToText) : M STTRequest bool :=
  emit FallbackVoice >>
  modify (fun _ => {| audio_prepare := prepare_hook |}) >>
  stt_transcribe stt.

Definition is_hook (a : Action) : bool :=
  match a with Hook _ => true | _ => false end.

Definition is_submission (a : Action) : bool :=
  match a with SttTranscribe => true | _ => false end.

(** How often an engine's work awaits [request.audio.prepare()]. *)
Fixpoint prepares (steps : list EngineStep) : nat :=
  match steps with
  | [] => 0
  | await_prepare :: steps => S (prepares steps)
  | read_audio :: steps => prepares steps
  end.

(** An engine that awaits [prepare()] and then reads the audio, and one
    that reads the audio straight away. *)
Definition careful_engine : ISpeechToText :=
  {| accepts := true; work := [await_prepare; read_audio] |}.

Definition hasty_engine : ISpeechToText :=
  {| accepts := true; work := [read_audio] |}.

(** The remote registration call. *)
Definition is_registration (a : Action) : bool :=
  match a with RestPut _ => true | _ => false end.

End GuildAssistant.

(** ** App: lifecycle *)

Module App.

Record ModuleReport : Type := {
  enabled : bool;
  name : string;
  description : string;
}.

(** The fields of an [App] its lifecycle reads or writes; the two reports
    are what [engines.setup] and [plugins.setup] resolve to. *)
Record App : Type := {
  status : Status;
  locale : string;
  engineReport : list ModuleReport;
  pluginReport : list ModuleReport;
}.

Definition set_status (st : Status) (a : App) : App :=
  {| status := st; locale := locale a; engineReport := engineReport a;
     pluginReport := pluginReport a |}.

Definition constructor (locale : string) (engines plugins : list ModuleReport) : App :=
  {| status := unready; locale := locale; engineReport := engines; pluginReport := plugins |}.

Definition assign_status (st : Status) : M App unit :=
  modify (set_status st) >> emit (SetStatus st).

(** [`${module.enabled ? '*' : '-'} ${module.name}: ${module.description}`]. *)
Definition report_line (m : ModuleReport) : string :=
  (if enabled m then "*" else "-") +:+ " " +:+ name m +:+ ": " +:+ description m.

Fixpoint log_modules (ms : list ModuleReport) : M App unit :=
  match ms with
  | [] => ret tt
  | m :: ms => emit (Log level_info [Text (report_line m)]) >> log_modules ms
  end.

(** [await Promise.all([a, b])]: both are started, and either's rejection
    rejects the whole. *)
Definition all2 (a b : M App unit) : M App unit :=
  let* oa := attempt a in
  let* ob := attempt b in
  match oa, ob with
  | Rejected e, _ => throw e
  | _, Rejected e => throw e
  | _, _ => ret tt
  end.

(** [App.setup] (the optional [log.debug] lines left out). *)
Definition setup : M App unit :=
  let* st := gets status in
  if negb (bool_decide (st = unready)) then ret tt else
  assign_status preparing >>
  emit (Log level_info [Text "Launching iwassistant"]) >>
  let* l := gets locale in
  emit (Log level_info [Text ("Locale: " +:+ l)]) >>
  call (Invoke "engines.setup") >>
  emit (Log level_info [Text "Engines:"]) >>
  let* engines := gets engineReport in
  log_modules engines >>
  call (Invoke "data.setup") >>
  call (Invoke "plugins.setup") >>
  emit (Log level_info [Text "Plugins:"]) >>
  let* plugins := gets pluginReport in
  log_modules plugins >>
  call (Invoke "attach") >>
  all2 (call (Invoke "discord.setup")) (call (Invoke "home.setup")) >>
  emit (Log level_info [Text "Ready"]) >>
  assign_status ready >>
  emit (Emit "ready" None).

(** [x.catch(this.#log.error)]. *)
Definition caught (m : M App unit) : M App unit :=
  let* o := attempt m in log_rejection o.

(** [App.destroy]. *)
Definition destroy (reason : string) : M App unit :=
  let* st := gets status in
  if negb (bool_decide (st = ready)) then ret tt else
  assign_status destroying >>
  caught (call (Hook "destroy")) >>
  all2 (caught (call (Invoke "discord.destroy"))) (caught (call (Invoke "home.destroy"))) >>
  caught (call (Invoke "data.destroy")) >>
  emit (Log level_info [Text ("Destroyed by " +:+ reason)]) >>
  assign_status destroyed.

Inductive LifecycleCall : Type :=
| call_setup
| call_destroy (reason : string).

Definition lifecycle (c : LifecycleCall) : M App unit :=
  match c with
  | call_setup => attempt setup >> ret tt
  | call_destroy reason => attempt (destroy reason) >> ret tt
  end.

Fixpoint lifecycle_all (cs : list LifecycleCall) : M App unit :=
  match cs with
  | [] => ret tt
  | c :: cs => lifecycle c >> lifecycle_all cs
  end.

End App.

(** The order of the lifecycle: each status and the one that may follow. *)
Definition lifecycle_chain : list Status :=
  [unready; preparing; ready; destroying; destroyed].

(** ** Further readings of a trace *)

(** The acknowledgment placeholder of the slash path. *)
Definition is_placeholder (a : Action) : bool :=
  match a with
  | InteractionReply c => String.eqb c "..."
  | _ => false
  end.

(** The error log a rejection leaves behind when it is caught by
    [.catch(log.error)]: nothing when the call resolved. *)
Definition rejection (o : option Error) : list Action :=
  match o with
  | Some e => [Log level_error [Cause e]]
  | None => []
  end.

(** One when a timer has fired, zero otherwise. *)
Definition fired (t : Commands.Timer) : nat :=
  match t with
  | Commands.timer_fired => 1
  | _ => 0
  end.

(** Since an invocation began with [i] indicators and [b] cues in the
    trace, one more of each has come exactly when the event is notified. *)
Definition tally (i b : nat) (w : World Commands.Invocation) : Prop :=
  count Commands.is_indicator (trace w) = i + (if Commands.notified (self w) then 1 else 0) /\
  count Commands.is_beep (trace w) = b + (if Commands.notified (self w) then 1 else 0).

(** Since an invocation began with [n] placeholders in the trace, one
    more has come exactly when its timer has fired. *)
Definition placeholders (n : nat) (w : World Commands.Invocation) : Prop :=
  count is_placeholder (trace w) = n + fired (Commands.timer (self w)).

(** On the voice path: the indicator message is [m], and the trace holds
    [i] indicators and [b] cues. *)
Definition memoised (m : Commands.Message) (i b : nat) (w : World Commands.Invocation) : Prop :=
  Commands.message (self w) = Some m /\
  count Commands.is_indicator (trace w) = i /\
  count Commands.is_beep (trace w) = b.

(** An [emit] of the event [event]. *)
Definition emits (event : string) (a : Action) : bool :=
  match a with
  | Emit ev _ => String.eqb ev event
  | _ => false
  end.

(** A call of the subsystem method [callee]. *)
Definition invokes (callee : string) (a : Action) : bool :=
  match a with
  | Invoke c => String.eqb c callee
  | _ => false
  end.

(** A dispatch of the hook [name]. *)
Definition hooks (name : string) (a : Action) : bool :=
  match a with
  | Hook n => String.eqb n name
  | _ => false
  end.

(** One for a status from [ready] on, zero before. *)
Definition been_ready (st : Status) : nat :=
  match st with
  | unready | preparing => 0
  | ready | destroying | destroyed => 1
  end.

(** ** App: fatal errors, halt signals and launch *)

Module AppProcess.

Import App.

(** [App.onFatal]: [console.error('[FATAL]', error)], then
    [process.exit(1)]. *)
Definition onFatal (error : Error) : M App unit :=
  emit (Invoke ("console.error('[FATAL]', " +:+ error +:+ ")")) >>
  emit (Invoke "process.exit(1)").

(** The handler [App.build] registers for each of [HaltSignals]:
    [app.destroy(signal).then(() => process.exit()).catch(App.onFatal)]. *)
Definition on_halt (signal : string) : M App unit :=
  let* o := attempt (destroy signal) in
  match o with
  | Resolved _ => emit (Invoke "process.exit()")
  | Rejected error => onFatal error
  end.

(** [App.launch(app)] for an app that is given:
    [(async () => { await app.setup(); })().catch(App.onFatal)]. *)
Definition launch : M App unit :=
  let* o := attempt setup in
  match o with
  | Resolved _ => ret tt
  | Rejected error => onFatal error
  end.

End AppProcess.

(** ** Sample objects *)

(** A guild assistant as constructed, whose own member lacks six of the
    least permissions. *)
Definition sample_assistant (slash : bool) (o : list (option Error))
  : World GuildAssistant.Assistant :=
  mkWorld (GuildAssistant.constructor Commands.alice "guild" slash ∅) [] o.

Definition sample_app (o : list (option Error)) : World App.App :=
  mkWorld (App.constructor "en"
             [{| App.enabled := true; App.name := "tts"; App.description := "speech" |}]
             []) [] o.

(** ** App.argv *)

Module Argv.

(** [arg.startsWith('--')]. *)
Definition is_flag (arg : string) : bool := String.prefix "--" arg.

(** [arg.slice(start)] for a start that is not negative. *)
Fixpoint slice (start : nat) (arg : string) : string :=
  match start, arg with
  | 0, _ => arg
  | S n, String _ rest => slice n rest
  | S _, EmptyString => ""
  end.

(** The object [argv] as the loop can see it: its own properties, and
    the array that was assigned to [argv['__proto__']], if any.  (That
    assignment replaces the object's prototype and creates no own property;
    reading [argv['__proto__']] gives the array back.  No other inherited
    property is an array.) *)
Record Argv : Type := {
  own : gmap string (list string);
  proto : option (list string);
}.

Definition empty : Argv := {| own := ∅; proto := None |}.

(** [argv[name]], when [Array.isArray] holds of it. *)
Definition get (a : Argv) (name : string) : option (list string) :=
  if String.eqb name "__proto__" then proto a else own a !! name.

(** [argv[name] = value], and [argv[name].push(arg)] as the update of
    [argv[name]] it amounts to. *)
Definition set (a : Argv) (name : string) (value : list string) : Argv :=
  if String.eqb name "__proto__"
  then {| own := own a; proto := Some value |}
  else {| own := <[name := value]> (own a); proto := proto a |}.

(** One turn of the loop, on the variable [name] and the object. *)
Definition step (st : option string * Argv) (arg : string) : option string * Argv :=
  let name := if is_flag arg then Some (slice 2 arg) else fst st in
  match name with
  | None => (name, snd st)
  | Some "" => (name, snd st)
  | Some n =>
      (name,
       match get (snd st) n with
       | Some value => set (snd st) n (value ++ [arg])
       | None => set (snd st) n []
       end)
  end.

(** The loop over the arguments. *)
Definition scan (args : list string) : option string * Argv :=
  fold_left step args (None, empty).

Definition parse (args : list string) : Argv := snd (scan args).

(** [App.argv()], given [process.argv]. *)
Definition argv (process_argv : list string) : Argv := parse (drop 2 process_argv).

(** A name the loop stores as an own property. *)
Definition plain (name : string) : Prop := name <> "" /\ name <> "__proto__".

(** What holds of the loop's state once it has gone through [args]: the
    own properties are the plain names of the flags seen, and [name] is the
    name of a flag seen. *)
Definition keys_of (args : list string) (st : option string * Argv) : Prop :=
  (forall n : string, plain n -> (is_Some (own (snd st) !! n) <-> "--" +:+ n ∈ args)) /\
  (forall n : string, fst st = Some n -> n = "" \/ "--" +:+ n ∈ args).

End Argv.

(** ** #updateSlashCommands: the construction of the command definitions *)

Module SlashCommands.

Definition Locale : Type := string.

(** A command's [description] in a plugin's localization table: a
    string, or a pair of a string and the descriptions of the options. *)
Inductive Description : Type :=
| Plain (text : string)
| Detailed (text : string) (options : list (string * string)).

(** [{ description, options }], a value of the [i18n] map. *)
Record Metadata : Type := {
  description : string;
  options : list (string * string);
}.

(** [command.plugin]: [i18n] as [Object.entries] lists it, each locale
    with its [metadata.command] (empty when there is none), and
    [permissions]. *)
Record Plugin : Type := {
  i18n : list (Locale * gmap string Description);
  permissions : gmap string (list Commands.PermissionsString);
}.

Record AttachedCommand : Type := {
  id : string;
  name : string;
  plugin : Plugin;
}.

(** What the code gives the builder of one string option. *)
Record StringOption : Type := {
  option_name : string;
  option_description : string;
  option_required : bool;
  option_localizations : list (Locale * string);
}.

(** What the code gives a [SlashCommandBuilder]: the arguments of
    [setName], [setDescription], [setDefaultMemberPermissions] (the
    permissions the bit field is made of), [setDescriptionLocalization] and
    [addStringOption], in the order of the calls. *)
Record SlashCommand : Type := {
  command_name : string;
  command_description : string;
  default_member_permissions : option (list Commands.PermissionsString);
  description_localizations : list (Locale * string);
  command_options : list StringOption;
}.

(** A [Map<Locale, Metadata>], its entries in insertion order. *)
Abbreviation I18n := (list (Locale * Metadata)).

(** [i18n.get(locale)]. *)
Fixpoint get (m : I18n) (locale : Locale) : option Metadata :=
  match m with
  | [] => None
  | (l, metadata) :: m => if String.eqb l locale then Some metadata else get m locale
  end.

(** [i18n.has(locale)]. *)
Definition has (m : I18n) (locale : Locale) : bool :=
  match get m locale with Some _ => true | None => false end.

(** [i18n.set(locale, metadata)]: a known key keeps its place. *)
Fixpoint set (m : I18n) (locale : Locale) (metadata : Metadata) : I18n :=
  match m with
  | [] => [(locale, metadata)]
  | (l, old) :: m =>
      if String.eqb l locale then (l, metadata) :: m else (l, old) :: set m locale metadata
  end.

(** [record[key]] of a [Record<string, string>]. *)
Fixpoint field (record : list (string * string)) (key : string) : option string :=
  match record with
  | [] => None
  | (k, v) :: record => if String.eqb k key then Some v else field record key
  end.

(** The entry of the map a description gives: none for an empty string
    ([if (!description) continue]). *)
Definition to_metadata (d : Description) : option Metadata :=
  match d with
  | Plain "" => None
  | Plain text => Some {| description := text; options := [] |}
  | Detailed text opts => Some {| description := text; options := opts |}
  end.

(** The first loop: the locales that describe the command. *)
Definition collect (command : AttachedCommand) : I18n :=
  fold_left
    (fun m entry =>
       match snd entry !! name command with
       | None => m
       | Some d =>
           match to_metadata d with
           | None => m
           | Some metadata => set m (fst entry) metadata
           end
       end)
    (i18n (plugin command)) [].

(** [text || '-']. *)
Definition or_dash (text : string) : string :=
  match text with
  | "" => "-"
  | _ => text
  end.

(** [record[key] || '-']. *)
Definition field_or_dash (record : list (string * string)) (key : string) : string :=
  match field record key with
  | Some text => or_dash text
  | None => "-"
  end.

Section Building.

(** [toLanguage] of the utilities and [Object.values(DiscordLocales)]. *)
Variable toLanguage : Locale -> Locale.
Variable discordLocales : list Locale.

(** The second loop, [for (const [locale, metadata] of i18n)], which adds
    entries to the map it goes over: the iterator is at entry [i], and goes
    on to the entries added meanwhile.  [None]: out of fuel. *)
Fixpoint languages_from (fuel i : nat) (m : I18n) : option I18n :=
  match fuel with
  | 0 => None
  | S fuel =>
      match m !! i with
      | None => Some m
      | Some (locale, metadata) =>
          let lang := toLanguage locale in
          if has m lang then languages_from fuel (S i) m
          else languages_from fuel (S i) (set m lang metadata)
      end
  end.

(** The loop from the first entry, with fuel for twice the entries and
    the final test. *)
Definition languages (m : I18n) : option I18n :=
  languages_from (S (2 * length m)) 0 m.

(** [i18n.get('en') ?? [...i18n.values()][0]]. *)
Definition main_of (m : I18n) : option Metadata :=
  match get m "en" with
  | Some metadata => Some metadata
  | None => head (map snd m)
  end.

(** [i18n.get(locale) ?? i18n.get(toLanguage(locale))]. *)
Definition sub_of (m : I18n) (locale : Locale) : option Metadata :=
  match get m locale with
  | Some metadata => Some metadata
  | None => get m (toLanguage locale)
  end.

(** A loop over [discordLocales] that sets a localization for each locale
    with a [sub]. *)
Definition localize (m : I18n) (text : Metadata -> string) : list (Locale * string) :=
  omap (fun locale =>
          match sub_of m locale with
          | Some sub => Some (locale, text sub)
          | None => None
          end)
    discordLocales.

Definition string_option (m : I18n) (entry : string * string) : StringOption :=
  {| option_name := fst entry;
     option_description := or_dash (snd entry);
     option_required := true;
     option_localizations :=
       localize m (fun sub => field_or_dash (options sub) (fst entry)) |}.

(** The builder of one command, from its map and its [main]. *)
Definition slash_command (command : AttachedCommand) (m : I18n) (main : Metadata)
  : SlashCommand :=
  {| command_name := id command;
     command_description := or_dash (description main);
     default_member_permissions :=
       match permissions (plugin command) !! name command with
       | Some (p :: ps) => Some (p :: ps)
       | _ => None
       end;
     description_localizations := localize m (fun sub => or_dash (description sub));
     command_options := map (string_option m) (options main) |}.

(** One turn of the loop over the commands: the builder to push, if any. *)
Definition build_command (command : AttachedCommand) : option (option SlashCommand) :=
  match languages (collect command) with
  | None => None
  | Some m =>
      Some (match main_of m with
            | None => None
            | Some main => Some (slash_command command m main)
            end)
  end.

(** The loop over [this.commands.values()]: [slashCommands]. *)
Fixpoint build_commands (commands : list AttachedCommand) : option (list SlashCommand) :=
  match commands with
  | [] => Some []
  | command :: commands =>
      match build_command command, build_commands commands with
      | Some (Some c), Some cs => Some (c :: cs)
      | Some None, Some cs => Some cs
      | _, _ => None
      end
  end.

End Building.

(** Whether some locale of the plugin's table has a description of the
    command that is not the empty string. *)
Definition describes (command : AttachedCommand) (entry : Locale * gmap string Description)
  : bool :=
  match snd entry !! name command with
  | None => false
  | Some d => match to_metadata d with Some _ => true | None => false end
  end.

Definition described (command : AttachedCommand) : bool :=
  existsb (describes command) (i18n (plugin command)).

(** Nothing a command is built with is an empty text. *)
Definition no_empty_text (c : SlashCommand) : Prop :=
  command_description c <> "" /\
  Forall (fun l => snd l <> "") (description_localizations c) /\
  Forall (fun o => option_description o <> "" /\
                   Forall (fun l => snd l <> "") (option_localizations o))
    (command_options c).

(** The keys of the entries from position [n] on are languages already. *)
Definition settled (toLanguage : Locale -> Locale) (n : nat) (m : I18n) : Prop :=
  forall (j : nat) (l : Locale) (metadata : Metadata),
    n <= j -> m !! j = Some (l, metadata) -> toLanguage l = l.

(** *** Samples *)

(** A [toLanguage] that keeps the two letters before the region. *)
Definition sample_toLanguage (l : Locale) : Locale := String.substring 0 2 l.

Definition sample_locales : list Locale := ["en-US"; "en-GB"; "ja"; "fr"].

Definition sample_plugin : Plugin :=
  {| i18n := [("en-US", {[ "ping" := Detailed "Ping someone" [("target", "Who")] ]});
              ("ja", {[ "ping" := Plain "pin"; "hidden" := Plain "" ]})];
     permissions := {[ "ping" := ["ManageMessages"] ]} |}.

Definition sample_ping : AttachedCommand :=
  {| id := "ping"; name := "ping"; plugin := sample_plugin |}.

Definition sample_help : AttachedCommand :=
  {| id := "help"; name := "help";
     plugin := {| i18n := [("ja", {[ "help" := Plain "herupu" ]});
                           ("en", {[ "help" := Plain "Help" ]})];
                  permissions := ∅ |} |}.

Definition sample_hidden : AttachedCommand :=
  {| id := "hidden"; name := "hidden"; plugin := sample_plugin |}.

End SlashCommands.

(** * Properties *)

(** ** The monad's equations *)

Lemma count_app (p : Action -> bool) (a b : list Action) :
  count p (a ++ b) = count p a + count p b.
Proof. induction a as [|x a IH]; cbn; [done|]. rewrite IH. lia. Qed.

Lemma call_resolves {S} (a : Action) (w : World S) :
  next_outcome (oracle w) = None ->
  call a w = (Resolved tt, mkWorld (self w) (trace w ++ [a]) (tail (oracle w))).
Proof. intros H. unfold call. by rewrite H. Qed.

Lemma call_rejects {S} (a : Action) (w : World S) (e : Error) :
  next_outcome (oracle w) = Some e ->
  call a w = (Rejected e, mkWorld (self w) (trace w ++ [a]) (tail (oracle w))).
Proof. intros H. unfold call. by rewrite H. Qed.

#[local] Arguments call {S} a w : simpl never.
#[local] Arguments String.append : simpl never.

(** Unfolds the monad's operations in the goal. *)
Ltac unfold_monad :=
  unfold exec, bind, ret, throw, attempt, gets, modify, emit, log_rejection;
  cbn.

Ltac unfold_monad_in H :=
  unfold exec, bind, ret, throw, attempt, gets, modify, emit, log_rejection in H;
  cbn in H.

(** Brings worlds and traces to normal form. *)
Ltac normalize :=
  cbn; rewrite <- ?app_assoc; cbn.

(** Settles the next collaborator call either way. *)
Ltac settle_call :=
  match goal with
  | |- context [call ?a ?w] =>
      let o := eval cbn in (oracle w) in
      let E := fresh "E" in
      let e := fresh "e" in
      destruct (next_outcome o) as [e|] eqn:E;
      [ rewrite (call_rejects a w e E) | rewrite (call_resolves a w E) ];
      cbn
  end.

Section PlayableSpeechFacts.
Import PlayableSpeech.

Lemma generator_empty (w : World PlayableSpeechImpl) (req : TTSRequest) :
  text req = "" ->
  generator req w =
    match next_outcome (oracle w) with
    | None => (Resolved (with_resource req EmptyAudio),
               mkWorld (self w) (trace w ++ [Hook "speak"; CreateEmptyAudioResource])
                 (tail (oracle w)))
    | Some e => (Rejected e, mkWorld (self w) (trace w ++ [Hook "speak"]) (tail (oracle w)))
    end.
Proof.
  intros H. unfold generator. rewrite H. cbn [String.length Nat.eqb].
  unfold_monad. settle_call; [done|].
  by rewrite <- app_assoc.
Qed.

(** C5 (as amended).  A speech that already has a response ignores
    [generate()]: the call changes nothing and emits nothing.  A speech
    without a response runs its generator, synthesises at most once in that
    call, and emits exactly one event: [ready], and then it has a response,
    or [error], and then it still has none (there is no errored state, so a
    later [generate()] runs the generator again). *)
Theorem generate_noop_once_ready (w : World PlayableSpeechImpl) :
  match response (self w) with
  | Some _ => speech_generate w = (Resolved tt, w)
  | None =>
      exists d : list Action,
        trace (exec speech_generate w) = trace w ++ d /\
        count is_synthesis d <= 1 /\
        ((is_Some (response (self (exec speech_generate w))) /\
          count is_ready d = 1 /\ count is_error d = 0) \/
         (response (self (exec speech_generate w)) = None /\
          count is_ready d = 0 /\ count is_error d = 1))
  end.
Proof.
  destruct w as [[req resp] t o]. destruct resp as [r|]; [reflexivity|].
  cbn [response self]. unfold speech_generate, generate, generator, tts_generate.
  unfold_monad. cbn [response request].
  settle_call; cbn [response request].
  - exists [Hook "speak"; Emit "error" (Some e)]. normalize.
    split; [done|]. split; [cbn; lia|]. right. by cbn.
  - destruct (String.length (text req) =? 0)%nat; normalize.
    + exists [Hook "speak"; CreateEmptyAudioResource; Emit "ready" None].
      split; [done|]. split; [cbn; lia|]. left. cbn. eauto.
    + settle_call; normalize.
      * exists [Hook "speak"; TtsGenerate (text req); Emit "error" (Some e)].
        split; [done|]. split; [cbn; lia|]. right. by cbn.
      * exists [Hook "speak"; TtsGenerate (text req); Emit "ready" None].
        split; [done|]. split; [cbn; lia|]. left. cbn. eauto.
Qed.

(** C5, as stated, fails: a speech whose first synthesis is rejected is
    not left in an errored state that [generate()] would respect.  The
    second call synthesises again, so the engine is called twice and the
    speech emits both [error] and [ready]. *)
Lemma generate_retries_after_error :
  let w0 := createSpeech {| text := "hello"; voice := "en" |} [None; Some "engine down"] in
  let w1 := exec speech_generate w0 in
  let w2 := exec speech_generate w1 in
  response (self w1) = None /\
  trace w2 = [Hook "speak"; TtsGenerate "hello"; Emit "error" (Some "engine down");
              Hook "speak"; TtsGenerate "hello"; Emit "ready" None] /\
  count is_synthesis (trace w2) = 2 /\
  count is_error (trace w2) = 1 /\ count is_ready (trace w2) = 1.
Proof. vm_compute. repeat split; reflexivity. Qed.

(** C8 (as amended).  For a speech with the empty text and no response
    yet, [generate()] never calls the engine's [generate].  When the
    [speak] hook goes through, the speech gets the empty audio resource as
    its response and emits [ready]; when the hook rejects, the speech emits
    [error] and has no response. *)
Theorem empty_text_skips_engine (w : World PlayableSpeechImpl) :
  text (request (self w)) = "" ->
  response (self w) = None ->
  match next_outcome (oracle w) with
  | None =>
      trace (exec speech_generate w) =
        trace w ++ [Hook "speak"; CreateEmptyAudioResource; Emit "ready" None] /\
      response (self (exec speech_generate w)) =
        Some (with_resource (request (self w)) EmptyAudio)
  | Some e =>
      trace (exec speech_generate w) = trace w ++ [Hook "speak"; Emit "error" (Some e)] /\
      response (self (exec speech_generate w)) = None
  end.
Proof.
  intros Htext Hresp. unfold speech_generate, generate.
  unfold_monad. rewrite Hresp. rewrite (generator_empty w _ Htext).
  destruct (next_outcome (oracle w)) as [e|]; cbn [self trace oracle snd];
    repeat rewrite <- app_assoc; by rewrite ?Hresp.
Qed.

Lemma empty_text_skips_engine_witness :
  trace (exec speech_generate (createSpeech {| text := ""; voice := "en" |} [])) =
    [Hook "speak"; CreateEmptyAudioResource; Emit "ready" None] /\
  response (self (exec speech_generate (createSpeech {| text := ""; voice := "en" |} []))) =
    Some (with_resource {| text := ""; voice := "en" |} EmptyAudio).
Proof.
  exact (empty_text_skips_engine (createSpeech {| text := ""; voice := "en" |} [])
           eq_refl eq_refl).
Defined.

(** C8, as stated, fails when a plugin's [beforeSpeak] handler rejects:
    the engine is not called, but the speech does not become ready. *)
Lemma empty_text_vetoed_not_ready :
  let w := exec speech_generate (createSpeech {| text := ""; voice := "en" |} [Some "veto"]) in
  response (self w) = None /\
  trace w = [Hook "speak"; Emit "error" (Some "veto")].
Proof. vm_compute. split; reflexivity. Qed.

End PlayableSpeechFacts.

Section CommandFacts.
Import Commands.

(** Opens an event operation on a world whose cells are explicit. *)
Ltac open_event :=
  unfold event_reply, event_notify, slash_reply, text_reply, voice_reply, slash_notify,
    text_notify, voice_notify, voice_message_notify, elapse, placeholder,
    reply_failure_unless_replied, interaction_reply, clearTimeout, setTimeout;
  unfold_monad.

Ltac settle_calls := repeat settle_call.

Lemma notify_when_notified (c : EventContext) (result : option Result) (w : World Invocation) :
  notified (self w) = true -> event_notify c result w = (Resolved tt, w).
Proof.
  intros H. destruct w as [[n r m t clock] tr o]. cbn in H. subst n.
  destruct c as [[] mid cid]; reflexivity.
Qed.

Lemma notified_after_notify (c : EventContext) (result : option Result) (w : World Invocation) :
  notified (self (exec (event_notify c result) w)) = true.
Proof.
  destruct w as [[n r m t clock] tr o], c as [[] mid cid]; open_event;
    destruct n, r, m; cbn; settle_calls; reflexivity.
Qed.

Lemma notified_after_reply (c : EventContext) (options : string) (result : option Result)
  (w : World Invocation) :
  notified (self (exec (event_reply c options result) w)) = true.
Proof.
  destruct w as [[n r m t clock] tr o], c as [[] mid cid]; open_event;
    destruct n, r, m; cbn; settle_calls; reflexivity.
Qed.

Lemma elapse_keeps_event (ms : N) (w : World Invocation) :
  notified (self (exec (elapse ms) w)) = notified (self w) /\
  message (self (exec (elapse ms) w)) = message (self w).
Proof.
  destruct w as [[n r m t clock] tr o]. open_event.
  destruct t as [|d| |]; try done.
  destruct (d <=? clock + ms)%N; [|done]. cbn.
  settle_calls; done.
Qed.

Lemma perform_invariant (c : EventContext) (e : EventCall) (w : World Invocation) :
  event_invariant w -> event_invariant (exec (perform c e) w).
Proof.
  unfold event_invariant. intros Hw. destruct e as [r|p r|ms]; cbn [perform].
  - intros H. exfalso. revert H. unfold exec, bind, attempt, ret.
    pose proof (notified_after_notify c r w) as N. unfold exec in N.
    destruct (event_notify c r w) as [o w']. cbn in *. congruence.
  - intros H. exfalso. revert H. unfold exec, bind, attempt, ret.
    pose proof (notified_after_reply c p r w) as N. unfold exec in N.
    destruct (event_reply c p r w) as [o w']. cbn in *. congruence.
  - destruct (elapse_keeps_event ms w) as [-> ->]. exact Hw.
Qed.

Lemma perform_monotone (c : EventContext) (e : EventCall) (w : World Invocation) :
  notified (self w) = true -> notified (self (exec (perform c e) w)) = true.
Proof.
  intros Hw. destruct e as [r|p r|ms]; cbn [perform].
  - rewrite <- (notified_after_notify c r w). unfold exec, bind, attempt, ret.
    by destruct (event_notify c r w).
  - rewrite <- (notified_after_reply c p r w). unfold exec, bind, attempt, ret.
    by destruct (event_reply c p r w).
  - by destruct (elapse_keeps_event ms w) as [-> _].
Qed.

Lemma perform_resolves (c : EventContext) (e : EventCall) (w : World Invocation) :
  perform c e w = (Resolved tt, exec (perform c e) w).
Proof.
  destruct e as [r|p r|ms]; cbn [perform]; unfold exec, bind, attempt, ret.
  - by destruct (event_notify c r w).
  - by destruct (event_reply c p r w).
  - unfold elapse, placeholder, log_rejection, interaction_reply. unfold_monad.
    destruct (timer _); try done. destruct (_ <=? _)%N; [|done].
    cbn. settle_call; done.
Qed.

Lemma perform_all_cons (c : EventContext) (e : EventCall) (es : list EventCall)
  (w : World Invocation) :
  exec (perform_all c (e :: es)) w = exec (perform_all c es) (exec (perform c e) w).
Proof.
  cbn [perform_all]. unfold exec at 1. unfold bind. by rewrite perform_resolves.
Qed.

Lemma perform_all_invariant (c : EventContext) (es : list EventCall) (w : World Invocation) :
  event_invariant w -> event_invariant (exec (perform_all c es) w).
Proof.
  revert w. induction es as [|e es IH]; intros w Hw; [exact Hw|].
  rewrite perform_all_cons. by apply IH, perform_invariant.
Qed.

Lemma perform_all_monotone (c : EventContext) (es : list EventCall) (w : World Invocation) :
  notified (self w) = true -> notified (self (exec (perform_all c es) w)) = true.
Proof.
  revert w. induction es as [|e es IH]; intros w Hw; [exact Hw|].
  rewrite perform_all_cons. by apply IH, perform_monotone.
Qed.

Lemma is_emoji_result (r : Result) : is_emoji (result_emoji r) = true.
Proof. by destruct r. Qed.

Lemma notify_first (c : EventContext) (result : option Result) (w : World Invocation) :
  notified (self w) = false -> message (self w) = None ->
  exists indicator : Action,
    is_indicator indicator = true /\
    trace (exec (event_notify c result) w) =
      trace w ++ [Beep (default success result); indicator].
Proof.
  intros Hn Hm. destruct w as [[n r m t clock] tr o]. cbn in Hn, Hm. subst n m.
  destruct c as [[] mid cid]; open_event.
  - destruct r; cbn.
    + exists (InteractionFollowUp (result_emoji (default success result))).
      split; [apply is_emoji_result|]. settle_call; by normalize.
    + exists (InteractionReply (result_emoji (default success result))).
      split; [apply is_emoji_result|]. settle_call; by normalize.
  - exists (MessageReact (result_emoji (default success result))).
    split; [apply is_emoji_result|]. settle_call; by normalize.
  - eexists (DestinationSend _). split; [done|]. settle_call; by normalize.
Qed.

(** C1.  Whatever a command body has done with its event so far (on the
    slash, text or voice path), a call to [notify] on an event that is not
    yet notified plays exactly one cue and sends exactly one result
    indicator, and leaves the event notified; a call on a notified event
    changes nothing and sends nothing; and nothing the body does afterwards
    makes a notified event un-notified. *)
Theorem notify_at_most_once (c : EventContext) (es : list EventCall)
  (result : option Result) (w0 : World Invocation) :
  notified (self w0) = false ->
  message (self w0) = None ->
  let w := exec (perform_all c es) w0 in
  let w' := exec (event_notify c result) w in
  (notified (self w) = false ->
   exists indicator : Action,
     is_indicator indicator = true /\
     trace w' = trace w ++ [Beep (default success result); indicator] /\
     count is_beep [Beep (default success result); indicator] = 1 /\
     count is_indicator [Beep (default success result); indicator] = 1 /\
     notified (self w') = true) /\
  (notified (self w) = true -> event_notify c result w = (Resolved tt, w)) /\
  (forall es' : list EventCall,
     notified (self w) = true -> notified (self (exec (perform_all c es') w)) = true).
Proof.
  intros Hn Hm w w'.
  assert (event_invariant w) as Hinv.
  { apply perform_all_invariant. intros _. exact Hm. }
  split; [|split].
  - intros Hw. destruct (notify_first c result w Hw (Hinv Hw)) as (i & Hi & Ht).
    exists i. split; [exact Hi|]. split; [exact Ht|].
    split; [|split].
    + destruct i; try discriminate Hi; reflexivity.
    + cbn. rewrite Hi. reflexivity.
    + apply notified_after_notify.
  - apply notify_when_notified.
  - intros es'. apply perform_all_monotone.
Qed.

(** C10 (as amended).  On each path [reply] runs [notify] first: when
    [notify] rejects, [reply] rejects with it and sends nothing more; when
    [reply] resolves, the event is notified and the payload is the last
    thing sent, after all [notify] did.  On a notified event a slash or text
    reply sends the payload and nothing else, and so does a voice reply once
    the indicator message exists; a voice reply on a notified event whose
    indicator message was never obtained plays the cue and sends the
    indicator message again, and then the payload if that went through. *)
Theorem reply_notifies_first (c : EventContext) (options : string)
  (result : option Result) (w : World Invocation) :
  let wn := exec (event_notify c result) w in
  let w' := exec (event_reply c options result) w in
  (forall e : Error,
     event_notify c result w = (Rejected e, wn) ->
     event_reply c options result w = (Rejected e, wn)) /\
  (forall m : Message,
     fst (event_reply c options result w) = Resolved m ->
     notified (self w') = true /\
     exists d : list Action, trace w' = trace wn ++ d ++ [payload_action c options]) /\
  (notified (self w) = true ->
   event_type c <> voice \/ is_Some (message (self w)) ->
   trace w' = trace w ++ [payload_action c options]) /\
  (notified (self w) = true ->
   event_type c = voice ->
   message (self w) = None ->
   exists sent : string,
     trace w' =
       trace w ++ [Beep (default success result); DestinationSend sent] ++
       match next_outcome (oracle w) with
       | None => [MessageReply options]
       | Some _ => []
       end).
Proof.
  cbn zeta. split; [|split; [|split]].
  - intros e. destruct w as [[n r m t clock] tr o], c as [[] mid cid]; open_event;
      destruct n, r, m; cbn; settle_calls; congruence.
  - intros m0 H. split; [apply notified_after_reply|].
    revert H. unfold payload_action.
    destruct w as [[n r m t clock] tr o], c as [[] mid cid]; open_event;
      destruct n, r, m; cbn; settle_calls; try discriminate; intros _;
      first [by (exists []; normalize) | by (eexists [_; _]; normalize)].
  - intros Hn Hm. unfold payload_action.
    destruct w as [[n r m t clock] tr o], c as [[] mid cid]; cbn in Hn, Hm; subst n;
      open_event.
    1,2: destruct r; cbn; settle_calls; by normalize.
    destruct Hm as [Hm|[m0 ->]]; [congruence|]. cbn. settle_calls; by normalize.
  - intros Hn Hv Hm.
    destruct w as [[n r m t clock] tr o], c as [ty mid cid]; cbn in Hn, Hv, Hm; subst n ty m.
    eexists. open_event. settle_call; [by normalize|].
    settle_call; by normalize.
Qed.

(** C10, as stated, fails on the voice path: the local [notify] is
    memoised on the message it obtained, not on [event.notified].  When the
    first indicator message could not be sent, the event is notified all the
    same, and a later [reply] plays the cue and sends the indicator again. *)
Lemma voice_reply_indicates_again :
  let c := {| event_type := voice; event_member_id := "42"; event_command_id := "ping" |} in
  let w := event_after c [Notify None] [Some "send failed"] in
  let w' := exec (event_reply c "pong" None) w in
  notified (self w) = true /\
  trace w = [Beep success; DestinationSend "<@42> `/ping` ✅"] /\
  trace w' = trace w ++ [Beep success; DestinationSend "<@42> `/ping` ✅"; MessageReply "pong"] /\
  count is_indicator (trace w') = 2.
Proof. vm_compute. repeat split; reflexivity. Qed.

(** *** What a command body can add to the trace *)

Lemma only_event_actions_refl (w : World Invocation) : only_event_actions w w.
Proof. exists []. by rewrite app_nil_r. Qed.

Lemma only_event_actions_trans (w1 w2 w3 : World Invocation) :
  only_event_actions w1 w2 -> only_event_actions w2 w3 -> only_event_actions w1 w3.
Proof.
  intros (d1 & H1 & F1) (d2 & H2 & F2). exists (d1 ++ d2).
  rewrite H2, H1, app_assoc. split; [done|].
  rewrite forallb_app, F1, F2. done.
Qed.

Ltac close_event_actions :=
  normalize;
  first [ by (exists []; rewrite app_nil_r)
        | by (eexists [_]; split; [reflexivity|])
        | by (eexists [_; _]; split; [reflexivity|])
        | by (eexists [_; _; _]; split; [reflexivity|]) ].

Lemma notify_event_actions (c : EventContext) (result : option Result) (w : World Invocation) :
  only_event_actions w (exec (event_notify c result) w).
Proof.
  unfold only_event_actions.
  destruct w as [[n r m t clock] tr o], c as [[] mid cid]; open_event;
    destruct n, r, m; cbn; settle_calls; close_event_actions.
Qed.

Lemma reply_event_actions (c : EventContext) (options : string) (result : option Result)
  (w : World Invocation) :
  only_event_actions w (exec (event_reply c options result) w).
Proof.
  unfold only_event_actions.
  destruct w as [[n r m t clock] tr o], c as [[] mid cid]; open_event;
    destruct n, r, m; cbn; settle_calls; close_event_actions.
Qed.

Lemma elapse_event_actions (ms : N) (w : World Invocation) :
  only_event_actions w (exec (elapse ms) w).
Proof.
  unfold only_event_actions.
  destruct w as [[n r m t clock] tr o]. open_event.
  destruct t as [|d| |]; cbn; try close_event_actions.
  destruct (d <=? clock + ms)%N; cbn; settle_calls; close_event_actions.
Qed.

Lemma elapse_resolves (ms : N) (w : World Invocation) :
  elapse ms w = (Resolved tt, exec (elapse ms) w).
Proof. exact (perform_resolves {| event_type := slash; event_member_id := ""; event_command_id := "" |} (Wait ms) w). Qed.

Lemma run_body_event_actions (c : EventContext) (b : Body) (w : World Invocation) :
  only_event_actions w (exec (run_body c b) w).
Proof.
  revert w. induction b as [v|e|r k IH|p r k IH|ms k IH]; intros w; cbn [run_body].
  - apply only_event_actions_refl.
  - apply only_event_actions_refl.
  - unfold exec, bind, attempt.
    pose proof (notify_event_actions c r w) as Hn. unfold exec in Hn.
    destruct (event_notify c r w) as [o w1]. cbn in Hn |- *.
    eapply only_event_actions_trans; [exact Hn|]. apply IH.
  - unfold exec, bind, attempt.
    pose proof (reply_event_actions c p r w) as Hn. unfold exec in Hn.
    destruct (event_reply c p r w) as [o w1]. cbn in Hn |- *.
    eapply only_event_actions_trans; [exact Hn|]. apply IH.
  - unfold exec, bind. rewrite elapse_resolves.
    eapply only_event_actions_trans; [apply elapse_event_actions|]. apply IH.
Qed.

Lemma count_event_actions (p : Action -> bool) (d : list Action) :
  (forall a : Action, is_event_action a = true -> p a = false) ->
  forallb is_event_action d = true -> count p d = 0.
Proof.
  intros Hp. induction d as [|a d IH]; cbn; [done|].
  intros [Ha Hd]%andb_prop. by rewrite (Hp a Ha), IH.
Qed.

Lemma info_not_event_action (a : Action) :
  is_event_action a = true -> is_log level_info a = false.
Proof. by destruct a as [| | | | | | | | |[]| | | | | | | | | |]. Qed.

Lemma execute_not_event_action (a : Action) :
  is_event_action a = true -> is_execute a = false.
Proof. by destruct a. Qed.

Lemma command_execute_trace (c : EventContext) (command : Command) (w : World Invocation) :
  exists d : list Action,
    trace (exec (command_execute c command) w) = trace w ++ Execute (command_id command) :: d /\
    forallb is_event_action d = true.
Proof.
  unfold command_execute. unfold exec at 1. unfold bind, emit.
  destruct (run_body_event_actions c (execute command)
              (mkWorld (self w) (trace w ++ [Execute (command_id command)]) (oracle w)))
    as (d & Hd & Fd).
  exists d. split; [|exact Fd].
  unfold exec in Hd. rewrite Hd. cbn. by rewrite <- app_assoc.
Qed.

#[local] Arguments command_execute : simpl never.
#[local] Arguments event_notify : simpl never.

Lemma at_execute_trace (command : Command) (source : Source) (w w1 : World Invocation)
  (c : EventContext) :
  at_execute command source w = Some (c, w1) ->
  count (is_log level_info) (trace w1) = count (is_log level_info) (trace w).
Proof.
  destruct source as [s|s|s]; cbn [at_execute].
  - destruct (interaction_channel s); [|done]. intros [= <- <-]. done.
  - unfold resolve_member. destruct (message_member s) as [m|].
    + cbn. destruct (permissions_has _ _); [|done]. by intros [= <- <-].
    + unfold_monad. settle_call; [done|].
      destruct (permissions_has _ _); [|done]. intros [= <- <-]. cbn.
      rewrite count_app. cbn. lia.
  - destruct (permissions_has _ _); [|done]. by intros [= <- <-].
Qed.

(** How each path goes on once the body has settled. *)
Lemma run_after_execute (command : Command) (source : Source) (w w1 w2 : World Invocation)
  (c : EventContext) (o : Outcome (option bool)) :
  at_execute command source w = Some (c, w1) ->
  command_execute c command w1 = (o, w2) ->
  exec (run command source) w =
    match o with
    | Rejected e =>
        match source with
        | interaction s => exec (slash_catch command s e) w2
        | by_message s => exec (text_catch command s e) w2
        | by_audio s => exec (voice_catch command s e) w2
        end
    | Resolved v =>
        let w3 := exec (after_return source >> attempt (event_notify c (Some (to_result v)))) w2 in
        exec (emit (Log level_info
                      [Text (log_line source command (result_name (to_result v)));
                       Options (log_options source command)]) >>
              log_rejection (fst (event_notify c (Some (to_result v)) (exec (after_return source) w2))))
          w3
    end.
Proof.
  intros Hat Hex. destruct source as [s|s|s]; cbn [at_execute run] in *.
  - unfold runCommandByInteraction. destruct (interaction_channel s); [|done].
    injection Hat as <- <-.
    unfold slash_main, exec at 1, bind at 1, attempt.
    unfold setTimeout at 1. unfold_monad. unfold setTimeout in Hex. unfold_monad_in Hex.
    rewrite Hex. destruct o as [v|e]; [|done]. cbn.
    unfold clearTimeout. unfold_monad.
    destruct (timer (self w2)); cbn;
      match goal with |- context [event_notify ?c ?r ?w] => destruct (event_notify c r w) as [[] ?] end;
      done.
  - unfold runCommandByMessage, text_main, exec at 1, bind at 1, attempt.
    unfold bind at 1.
    destruct (resolve_member s w) as [[m|e] wm]; [|done].
    destruct (permissions_has m (required_permissions command)); [|done].
    injection Hat as <- <-. cbn. unfold_monad. rewrite Hex.
    destruct o as [v|e]; [|done]. cbn.
    match goal with |- context [event_notify ?c ?r ?w] => destruct (event_notify c r w) as [[] ?] end;
      done.
  - unfold runCommandByAudio.
    destruct (permissions_has (audio_member s) (required_permissions command)); [|done].
    injection Hat as <- <-. cbn. unfold voice_main. unfold_monad. rewrite Hex.
    destruct o as [v|e]; [|done]. cbn.
    match goal with |- context [event_notify ?c ?r ?w] => destruct (event_notify c r w) as [[] ?] end;
      done.
Qed.

Lemma catch_trace (command : Command) (source : Source) (e : Error) (w2 : World Invocation) :
  exists tail : list Action,
    trace (match source with
           | interaction s => exec (slash_catch command s e) w2
           | by_message s => exec (text_catch command s e) w2
           | by_audio s => exec (voice_catch command s e) w2
           end) =
      trace w2 ++ catch_indicator source w2 ++
      [Beep failure;
       Log level_error [Text (log_line source command "error");
                        Options (log_options source command); Cause e]] ++ tail /\
    rejection_log tail.
Proof.
  unfold rejection_log.
  destruct source as [s|s|s]; cbn [catch_indicator log_line log_options].
  - unfold slash_catch, reply_failure_unless_replied, interaction_reply. unfold_monad.
    destruct (replied (self w2)); cbn.
    + exists []. normalize. eauto.
    + settle_call; normalize; eauto.
  - unfold text_catch. unfold_monad. settle_call; normalize; eauto.
  - unfold voice_catch. unfold_monad. exists []. normalize. eauto.
Qed.

Lemma rejection_log_no_info (tail : list Action) :
  rejection_log tail -> count (is_log level_info) tail = 0.
Proof. by intros [->|[e ->]]. Qed.

Lemma catch_indicator_no_info (source : Source) (w : World Invocation) :
  count (is_log level_info) (catch_indicator source w) = 0.
Proof. destruct source; cbn; [by destruct (replied _)|done|done]. Qed.

(** C2 (as amended).  On each of the three paths, when the command body
    throws or rejects with [error], the handler plays the failure cue and
    logs at error level the path's line with the result [error], the options
    and [error] itself, and nothing is logged at info level.  What the user
    is sent differs by path: a failure-emoji reaction on the text path; a
    failure-emoji reply on the slash path unless the interaction was already
    replied to; nothing on the voice path.  When the body returns instead,
    the outcome is logged at info level, with the result [failure] for a
    body that returned [false]. *)
Theorem thrown_failure_logged_as_error (command : Command) (source : Source)
  (c : EventContext) (o : Outcome (option bool)) (w w1 w2 : World Invocation) :
  at_execute command source w = Some (c, w1) ->
  command_execute c command w1 = (o, w2) ->
  let final := exec (run command source) w in
  match o with
  | Rejected error =>
      exists tail : list Action,
        trace final =
          trace w2 ++ catch_indicator source w2 ++
          [Beep failure;
           Log level_error [Text (log_line source command "error");
                            Options (log_options source command); Cause error]] ++ tail /\
        rejection_log tail /\
        count (is_log level_info) (trace final) = count (is_log level_info) (trace w)
  | Resolved v =>
      let notified_world :=
        exec (after_return source >> attempt (event_notify c (Some (to_result v)))) w2 in
      exists tail : list Action,
        trace final =
          trace notified_world ++
          [Log level_info [Text (log_line source command (result_name (to_result v)));
                           Options (log_options source command)]] ++ tail /\
        rejection_log tail
  end.
Proof.
  intros Hat Hex final. subst final. rewrite (run_after_execute _ _ _ _ _ _ _ Hat Hex).
  destruct o as [v|e].
  - cbn zeta. unfold_monad.
    match goal with |- context [event_notify ?c ?r ?w] => destruct (event_notify c r w) as [[[]|e] ?] end;
      [exists []|eexists [_]]; normalize; unfold rejection_log; eauto.
  - destruct (catch_trace command source e w2) as (tail & Ht & Hr).
    exists tail. split; [exact Ht|]. split; [exact Hr|].
    rewrite Ht. rewrite !count_app.
    rewrite (rejection_log_no_info _ Hr), catch_indicator_no_info. cbn.
    destruct (command_execute_trace c command w1) as (d & Hd & Fd).
    unfold exec in Hd. rewrite Hex in Hd. cbn in Hd. rewrite Hd, count_app. cbn.
    rewrite (count_event_actions _ d info_not_event_action Fd).
    rewrite (at_execute_trace _ _ _ _ _ Hat). lia.
Qed.

Lemma member_check_trace (source : Source) (m : GuildMember) (w w1 : World Invocation) :
  member_check source w = Some (m, w1) ->
  count is_execute (trace w1) = count is_execute (trace w).
Proof.
  destruct source as [s|s|s]; cbn [member_check]; [done| |by intros [= <- <-]].
  unfold resolve_member. destruct (message_member s) as [m0|].
  - by intros [= <- <-].
  - unfold_monad. settle_call; [done|]. intros [= <- <-]. cbn.
    rewrite count_app. cbn. lia.
Qed.

(** C3 (as amended).  On the text and voice paths, when the member the
    path checks does not pass [permissions.has] for the command's required
    permissions, [command.execute] is not called, the failure cue is played
    and the [forbidden] line is logged at warn level.  The text path also
    reacts with the forbidden emoji; the voice path sends the user nothing. *)
Theorem forbidden_never_executes (command : Command) (source : Source)
  (m : GuildMember) (w w1 : World Invocation) :
  member_check source w = Some (m, w1) ->
  permissions_has m (required_permissions command) = false ->
  let final := exec (run command source) w in
  exists tail : list Action,
    trace final =
      trace w1 ++ forbidden_indicator source ++
      [Beep failure;
       Log level_warn [Text (log_line source command "forbidden");
                       Options (command_options command)]] ++ tail /\
    rejection_log tail /\
    count is_execute (trace final) = count is_execute (trace w).
Proof.
  intros Hm Hp final. subst final.
  assert (forall tail : list Action, rejection_log tail -> count is_execute tail = 0) as Htail.
  { by intros tail [->|[e ->]]. }
  pose proof (member_check_trace _ _ _ _ Hm) as Hc.
  assert (exists tail : list Action,
            trace (exec (run command source) w) =
              trace w1 ++ forbidden_indicator source ++
              [Beep failure;
               Log level_warn [Text (log_line source command "forbidden");
                               Options (command_options command)]] ++ tail /\
            rejection_log tail) as (tail & Ht & Hr).
  { destruct source as [s|s|s]; cbn [member_check run forbidden_indicator log_line] in *;
      [done| |].
    - unfold runCommandByMessage, text_main, exec, bind at 1, attempt. unfold bind at 1.
      destruct (resolve_member s w) as [[m0|e] wm]; [|done].
      injection Hm as -> ->. rewrite Hp. cbn. unfold_monad.
      settle_call; normalize.
      + exists [Log level_error [Cause e]]. split; [done|]. right; eauto.
      + exists []. split; [done|]. by left.
    - injection Hm as <- <-. unfold runCommandByAudio. rewrite Hp. cbn. unfold_monad.
      exists []. normalize. split; [done|]. by left. }
  exists tail. split; [exact Ht|]. split; [exact Hr|].
  rewrite Ht, !count_app, (Htail _ Hr), Hc.
  destruct source; cbn; lia.
Qed.

Lemma notify_at_most_once_witness :
  let c := voice_context voice_source (ping (Return None) []) in
  let w := exec (perform_all c [Wait 10; Reply "pong" None]) (start []) in
  event_notify c (Some failure) w = (Resolved tt, w).
Proof.
  intros c w.
  refine (proj1 (proj2 (notify_at_most_once c [Wait 10%N; Reply "pong" None] (Some failure)
                          (start []) eq_refl eq_refl)) _).
  vm_compute. reflexivity.
Defined.

Lemma thrown_failure_logged_as_error_witness :
  exists tail : list Action,
    trace (exec (run (ping (Throw "boom") []) (by_message text_source)) (start [])) =
      [Execute "ping"] ++ [MessageReact (emoji_string emoji_failure)] ++
      [Beep failure;
       Log level_error [Text "Text command error: 42 -> /ping"; Options ∅; Cause "boom"]] ++
      tail /\
    rejection_log tail /\
    count (is_log level_info)
      (trace (exec (run (ping (Throw "boom") []) (by_message text_source)) (start []))) = 0.
Proof.
  exact (thrown_failure_logged_as_error (ping (Throw "boom") []) (by_message text_source)
           (text_context alice (ping (Throw "boom") [])) (Rejected "boom")
           (start []) (start []) (mkWorld new_invocation [Execute "ping"] [])
           eq_refl eq_refl).
Defined.

(** C2, as stated, fails for the failure indicator.  On the voice path
    the handler only plays the cue and logs: a body that throws sends the
    user nothing.  On the slash path the handler replies only while the
    interaction has not been replied to: a body that throws after the
    acknowledgment deadline leaves the user with the placeholder. *)
Lemma thrown_failure_without_indicator :
  let thrown := Log level_error [Text "Voice command error: 42 -> /ping";
                                 Options ∅; Cause "boom"] in
  let late := Log level_error [Text "Slash command error: 42 -> /ping";
                               Options ∅; Cause "boom"] in
  let by_voice := invoke (ping (Throw "boom") []) (by_audio voice_source) [] in
  let by_slash := invoke (ping (AwaitOther 3000 (Throw "boom")) []) (interaction slash_source) [] in
  trace by_voice = [Execute "ping"; Beep failure; thrown] /\
  count is_indicator (trace by_voice) = 0 /\
  trace by_slash = [Execute "ping"; InteractionReply "..."; Beep failure; late] /\
  count is_indicator (trace by_slash) = 0.
Proof. vm_compute. repeat split; reflexivity. Qed.

Lemma forbidden_never_executes_witness :
  exists tail : list Action,
    trace (exec (run (ping (Return None) ["ManageMessages"]) (by_message text_source)) (start [])) =
      [] ++ [MessageReact (emoji_string emoji_forbidden)] ++
      [Beep failure;
       Log level_warn [Text "Text command forbidden: 42 -> /ping"; Options ∅]] ++ tail /\
    rejection_log tail /\
    count is_execute
      (trace (exec (run (ping (Return None) ["ManageMessages"]) (by_message text_source))
                (start []))) = 0.
Proof.
  exact (forbidden_never_executes (ping (Return None) ["ManageMessages"])
           (by_message text_source) alice (start []) (start []) eq_refl eq_refl).
Defined.

(** C3, as stated, fails on the voice path: a member without the
    permissions hears the failure cue, and nothing is sent, no forbidden
    emoji either. *)
Lemma voice_forbidden_without_indicator :
  let w := invoke (ping (Return None) ["ManageMessages"]) (by_audio voice_source) [] in
  permissions_has alice (required_permissions (ping (Return None) ["ManageMessages"])) = false /\
  trace w = [Beep failure;
             Log level_warn [Text "Voice command forbidden: 42 -> /ping"; Options ∅]] /\
  count is_indicator (trace w) = 0.
Proof. vm_compute. repeat split; reflexivity. Qed.

(** *** The acknowledgment timer *)

(** When the body returns, the timer is cancelled before anything else:
    after the invocation it is cleared, or it had fired while the body ran. *)
Lemma returned_body_clears_timer (command : Command) (s : ChatInputCommandInteraction)
  (v : option bool) (w w1 w2 : World Invocation) (c : EventContext) :
  at_execute command (interaction s) w = Some (c, w1) ->
  command_execute c command w1 = (Resolved v, w2) ->
  timer (self (exec (run command (interaction s)) w)) =
    match timer (self w2) with
    | timer_armed _ => timer_cleared
    | t => t
    end.
Proof.
  intros Hat Hex. rewrite (run_after_execute _ _ _ _ _ _ _ Hat Hex).
  cbn [after_return]. generalize (Some (to_result v)). intros r.
  unfold clearTimeout. unfold_monad.
  assert (forall w0 : World Invocation,
            timer (self (event_notify c r w0).2) = timer (self w0)) as Hn.
  { intros [[n rp m t clock] tr o]. destruct c as [[] mid cid]. all: unfold event_notify.
    all: open_event; destruct n, rp, m; cbn; settle_calls; reflexivity. }
  destruct (timer (self w2)) eqn:Ht; cbn;
    match goal with
    | |- context [event_notify ?c ?r ?w] =>
        pose proof (Hn w) as Hw; destruct (event_notify c r w) as [[[]|e] w3]
    end; cbn in *; congruence.
Qed.

(** When the body throws, the handler leaves the timer as the body left it. *)
Lemma thrown_body_keeps_timer (command : Command) (s : ChatInputCommandInteraction)
  (e : Error) (w w1 w2 : World Invocation) (c : EventContext) :
  at_execute command (interaction s) w = Some (c, w1) ->
  command_execute c command w1 = (Rejected e, w2) ->
  timer (self (exec (run command (interaction s)) w)) = timer (self w2).
Proof.
  intros Hat Hex. rewrite (run_after_execute _ _ _ _ _ _ _ Hat Hex).
  unfold slash_catch, reply_failure_unless_replied, interaction_reply. unfold_monad.
  destruct (replied (self w2)); cbn; [done|]. settle_call; done.
Qed.

(** C4 at a failing input.  A slash command whose body throws at once:
    the handler replies with the failure emoji, and the timer is still armed
    for its deadline.  When the deadline comes, the callback sends the
    placeholder after the failure reply (the platform turns down a second
    reply, and that is logged as an error). *)
Theorem timer_survives_thrown_body :
  let refusal := "The reply to this interaction has already been sent or deferred." in
  let thrown := Log level_error [Text "Slash command error: 42 -> /ping";
                                 Options ∅; Cause "boom"] in
  let w := invoke (ping (Throw "boom") []) (interaction slash_source) [None; Some refusal] in
  timer (self w) = timer_armed 2500 /\
  trace w = [Execute "ping"; InteractionReply (emoji_string emoji_failure); Beep failure; thrown] /\
  trace (exec (elapse 2500) w) =
    trace w ++ [InteractionReply "..."; Log level_error [Cause refusal]].
Proof. vm_compute. repeat split; reflexivity. Qed.

End CommandFacts.

(** ** Lifecycle *)

Lemma statuses_app (a b : list Action) : statuses (a ++ b) = statuses a ++ statuses b.
Proof.
  induction a as [|x a IH]; [done|].
  destruct x; cbn; rewrite ?IH; done.
Qed.

Lemma statuses_work (a : Action) : is_work a = true -> statuses [a] = [].
Proof. by destruct a. Qed.

Section StableFacts.
Context {S : Type} (status_of : S -> Status).

#[local] Abbreviation view := (lifecycle_view status_of).
#[local] Abbreviation stable := (stable status_of).

Lemma stable_ret {A} (a : A) : stable (ret a).
Proof. done. Qed.

Lemma stable_throw {A} (e : Error) : stable (@throw S A e).
Proof. done. Qed.

Lemma stable_gets {A} (f : S -> A) : stable (gets f).
Proof. done. Qed.

Lemma stable_emit (a : Action) : is_work a = true -> stable (emit a).
Proof.
  intros Ha w. unfold lifecycle_view, emit. cbn.
  by rewrite statuses_app, (statuses_work a Ha), app_nil_r.
Qed.

Lemma stable_call (a : Action) : is_work a = true -> stable (call a).
Proof.
  intros Ha w. unfold lifecycle_view, call.
  destruct (next_outcome (oracle w)); cbn;
    by rewrite statuses_app, (statuses_work a Ha), app_nil_r.
Qed.

Lemma stable_modify (f : S -> S) :
  (forall s : S, status_of (f s) = status_of s) -> stable (modify f).
Proof. intros Hf w. unfold lifecycle_view, modify. cbn. by rewrite Hf. Qed.

Lemma stable_bind {A B} (m : M S A) (k : A -> M S B) :
  stable m -> (forall a : A, stable (k a)) -> stable (bind m k).
Proof.
  intros Hm Hk w. unfold bind. specialize (Hm w).
  destruct (m w) as [[a|e] w1]; cbn in Hm; [|exact Hm].
  by rewrite Hk.
Qed.

Lemma stable_attempt {A} (m : M S A) : stable m -> stable (attempt m).
Proof. intros Hm w. unfold attempt. specialize (Hm w). by destruct (m w). Qed.

Lemma stable_log_rejection {A} (o : Outcome A) : stable (log_rejection o).
Proof. destruct o; [apply stable_ret|by apply stable_emit]. Qed.

(** After a stable step the rest runs from the same view, unless the step
    rejected and nothing more happens. *)
Lemma after_stable {A B} (m : M S A) (k : A -> M S B)
  (P : Status * list Status -> Prop) (v : Status * list Status) (w : World S) :
  stable m ->
  view w = v ->
  P v ->
  (forall (a : A) (w1 : World S), view w1 = v -> P (view (snd (k a w1)))) ->
  P (view (snd (bind m k w))).
Proof.
  intros Hm Hv Pv Hk. unfold bind. specialize (Hm w).
  destruct (m w) as [[a|e] w1]; cbn in Hm.
  - apply Hk. congruence.
  - cbn. rewrite Hm, Hv. exact Pv.
Qed.

(** After a status write the rest runs from the view with that status. *)
Lemma after_assign {B} (set : Status -> S -> S) (st : Status) (k : unit -> M S B)
  (P : Status * list Status -> Prop) (v : Status * list Status) (w : World S) :
  (forall (st : Status) (s : S), status_of (set st s) = st) ->
  view w = v ->
  (forall w1 : World S, view w1 = (st, snd v ++ [st]) -> P (view (snd (k tt w1)))) ->
  P (view (snd (bind (modify (set st) >> emit (SetStatus st)) k w))).
Proof.
  intros Hset Hv Hk. unfold bind, modify, emit. cbn. apply Hk.
  unfold lifecycle_view. cbn. rewrite Hset, statuses_app. cbn.
  by rewrite <- Hv.
Qed.

Lemma at_stable {A} (m : M S A) (P : Status * list Status -> Prop)
  (v : Status * list Status) (w : World S) :
  stable m -> view w = v -> P v -> P (view (snd (m w))).
Proof. intros Hm Hv Pv. by rewrite Hm, Hv. Qed.

End StableFacts.

Create HintDb stable discriminated.
#[local] Hint Resolve stable_ret stable_throw stable_gets stable_bind stable_attempt
  stable_log_rejection : stable.
#[local] Hint Extern 1 (stable _ (emit _)) => apply stable_emit; reflexivity : stable.
#[local] Hint Extern 1 (stable _ (call _)) => apply stable_call; reflexivity : stable.
#[local] Hint Extern 2 (stable _ (if _ then _ else _)) =>
  match goal with |- context [if ?b then _ else _] => destruct b end : stable.
#[local] Hint Extern 2 (stable _ (match ?o with Resolved _ => _ | Rejected _ => _ end)) =>
  destruct o : stable.

(** Walks a lifecycle method: status writes move the view, everything else
    leaves it. *)
Ltac walk set_lemma :=
  repeat first
    [ eapply (after_assign _ _ _ _ _ _ _ set_lemma); [eassumption|]; cbn [snd];
      let w1 := fresh "w" in let H := fresh "Hv" in intros w1 H
    | eapply after_stable; [solve [eauto 10 with stable] | eassumption | solve [hnf; eauto] |];
      let a := fresh "a" in let w1 := fresh "w" in let H := fresh "Hv" in intros a w1 H
    | eapply at_stable; [solve [eauto 10 with stable] | eassumption | solve [hnf; eauto] ] ].

Lemma on_chain_history (st : Status) (h : list Status) :
  on_chain (st, h) ->
  exists n : nat, unready :: h = take (S n) lifecycle_chain /\ lifecycle_chain !! n = Some st.
Proof.
  unfold on_chain. cbn. destruct st; intros ->;
    [exists 0|exists 1|exists 2|exists 3|exists 4]; done.
Qed.

Lemma attempt_resolves {S A} (m : M S A) (w : World S) :
  (attempt m >> ret tt) w = (Resolved tt, snd (m w)).
Proof. unfold bind, attempt, ret. by destruct (m w). Qed.

Section GuildAssistantFacts.
Import Commands GuildAssistant.
Context {B : Type} (serialize : list B -> string) (md5 : string -> string).

#[local] Abbreviation update := (updateSlashCommands B serialize md5).
#[local] Abbreviation guild_setup := (setup B serialize md5).

(** C6 (as amended).  Once the [commandsUpdate] hook has gone through:
    when the digest of the command set equals the one persisted under
    ['slash'], no registration call is issued and the store is left as it
    is; when it differs, the registration call is issued, and the new digest
    is persisted once that call has resolved, while a rejected call leaves
    the store as it is.  After a synchronisation that went through, a second
    one over the same command set issues no registration call. *)
Theorem sync_skips_known_hash (cs : list B) (w : World Assistant) :
  let hash := md5 (serialize cs) in
  let hooked := mkWorld (self w) (trace w ++ [Hook "commandsUpdate"]) (tail (oracle w)) in
  let put := trace w ++ [Hook "commandsUpdate"; RestPut (serialize cs)] in
  match next_outcome (oracle w) with
  | Some e => update cs w = (Rejected e, hooked)
  | None =>
      if bool_decide (data (self w) !! "slash" = Some hash)
      then update cs w = (Resolved tt, hooked)
      else
        match next_outcome (tail (oracle w)) with
        | None =>
            update cs w =
              (Resolved tt,
               mkWorld (data_set "slash" hash (self w)) put (tail (tail (oracle w))))
        | Some e =>
            update cs w = (Rejected e, mkWorld (self w) put (tail (tail (oracle w))))
        end
  end /\
  (forall w1 : World Assistant,
     update cs w = (Resolved tt, w1) ->
     count is_registration (trace (exec (update cs) w1)) = count is_registration (trace w1)).
Proof.
  cbn zeta.
  assert (forall w0 : World Assistant,
            data (self w0) !! "slash" = Some (md5 (serialize cs)) ->
            count is_registration (trace (exec (update cs) w0)) =
              count is_registration (trace w0)) as Hknown.
  { intros w0 H0. unfold updateSlashCommands. unfold_monad. settle_call.
    - rewrite count_app. cbn. lia.
    - rewrite (bool_decide_eq_true_2 _ H0). cbn. rewrite count_app. cbn. lia. }
  unfold updateSlashCommands at 1 2 3 4 5. unfold_monad.
  destruct (next_outcome (oracle w)) as [e|] eqn:E.
  - rewrite (call_rejects _ w e E). split; [done|]. discriminate.
  - rewrite (call_resolves _ w E). cbn.
    destruct (bool_decide (data (self w) !! "slash" = Some (md5 (serialize cs)))) eqn:D.
    + split; [done|]. intros w1 [= <-]. apply Hknown. cbn. exact (bool_decide_eq_true_1 _ D).
    + destruct (next_outcome (tail (oracle w))) as [e|] eqn:E2.
      * rewrite call_rejects with (e := e) by exact E2. cbn. rewrite <- app_assoc.
        split; [done|]. discriminate.
      * rewrite call_resolves by exact E2. cbn. rewrite <- app_assoc.
        split; [done|]. intros w1 [= <-]. apply Hknown. cbn.
        apply lookup_insert_eq.
Qed.

Lemma guild_status_set (st : Status) (a : Assistant) : status (set_status st a) = st.
Proof. done. Qed.

Lemma stable_update (cs : list B) : stable status (update cs).
Proof.
  unfold updateSlashCommands. apply stable_bind; [eauto with stable|]. intros _.
  apply stable_bind; [eauto with stable|]. intros d.
  destruct (bool_decide _); [eauto with stable|].
  apply stable_bind; [eauto with stable|]. intros _.
  by apply stable_modify.
Qed.

Lemma guild_setup_noop (cs : list B) (w : World Assistant) :
  status (self w) <> unready -> guild_setup cs w = (Resolved tt, w).
Proof.
  intros H. unfold setup. unfold bind at 1. unfold gets.
  by rewrite bool_decide_eq_false_2.
Qed.

Lemma guild_destroy_noop (w : World Assistant) :
  status (self w) <> ready -> destroy w = (Resolved tt, w).
Proof.
  intros H. unfold destroy. unfold bind at 1. unfold gets.
  by rewrite bool_decide_eq_false_2.
Qed.

Lemma guild_setup_view (cs : list B) (w : World Assistant) :
  status (self w) = unready ->
  let h := statuses (trace w) in
  let v := lifecycle_view status (snd (guild_setup cs w)) in
  v = (preparing, h ++ [preparing]) \/ v = (ready, (h ++ [preparing]) ++ [ready]).
Proof.
  intros H h v. subst v.
  set (P := fun v : Status * list Status =>
              v = (preparing, h ++ [preparing]) \/ v = (ready, (h ++ [preparing]) ++ [ready])).
  change (P (lifecycle_view status (snd (guild_setup cs w)))).
  unfold setup. unfold bind at 1. unfold gets.
  rewrite H. rewrite bool_decide_eq_true_2 by done.
  cbn [negb]. unfold assign_status.
  assert (lifecycle_view status w = (unready, h)) as Hv0.
  { unfold lifecycle_view. by rewrite H. }
  pose proof (stable_update cs) as Hu.
  walk guild_status_set.
Qed.

Lemma guild_destroy_view (w : World Assistant) :
  status (self w) = ready ->
  let h := statuses (trace w) in
  let v := lifecycle_view status (snd (destroy w)) in
  v = (destroying, h ++ [destroying]) \/ v = (destroyed, (h ++ [destroying]) ++ [destroyed]).
Proof.
  intros H h v. subst v.
  set (P := fun v : Status * list Status =>
              v = (destroying, h ++ [destroying]) \/
              v = (destroyed, (h ++ [destroying]) ++ [destroyed])).
  change (P (lifecycle_view status (snd (destroy w)))).
  unfold destroy. unfold bind at 1. unfold gets.
  rewrite H. rewrite bool_decide_eq_true_2 by done.
  cbn [negb]. unfold assign_status.
  assert (lifecycle_view status w = (ready, h)) as Hv0.
  { unfold lifecycle_view. by rewrite H. }
  walk guild_status_set.
  right. unfold lifecycle_view, bind, modify, emit in *. cbn.
  rewrite statuses_app. cbn.
  match goal with
  | Hv : (_, statuses (trace ?w)) = _ |- context [statuses (trace ?w)] =>
      by injection Hv as _ ->
  end.
Qed.

Lemma guild_lifecycle_on_chain (c : LifecycleCall B) (w : World Assistant) :
  on_chain (lifecycle_view status w) ->
  on_chain (lifecycle_view status (exec (lifecycle B serialize md5 c) w)).
Proof.
  intros Hw. unfold exec. destruct c as [cs|]; cbn [lifecycle]; rewrite attempt_resolves; cbn [snd].
  - destruct (decide (status (self w) = unready)) as [Hs|Hs].
    + unfold on_chain, lifecycle_view in Hw. cbn in Hw. rewrite Hs in Hw.
      destruct (guild_setup_view cs w Hs) as [-> | ->]; rewrite Hw; done.
    + by rewrite guild_setup_noop.
  - destruct (decide (status (self w) = ready)) as [Hs|Hs].
    + unfold on_chain, lifecycle_view in Hw. cbn in Hw. rewrite Hs in Hw.
      destruct (guild_destroy_view w Hs) as [-> | ->]; rewrite Hw; done.
    + by rewrite guild_destroy_noop.
Qed.

Lemma guild_lifecycle_all_on_chain (cs : list (LifecycleCall B)) (w : World Assistant) :
  on_chain (lifecycle_view status w) ->
  on_chain (lifecycle_view status (exec (lifecycle_all B serialize md5 cs) w)).
Proof.
  revert w. induction cs as [|c cs IH]; intros w Hw; [exact Hw|].
  cbn [lifecycle_all]. unfold exec, bind.
  pose proof (guild_lifecycle_on_chain c w Hw) as Hc. unfold exec in Hc.
  destruct c; cbn [lifecycle] in *; rewrite attempt_resolves in *; by apply IH.
Qed.

End GuildAssistantFacts.

Section AppFacts.
Import App.

Lemma app_status_set (st : Status) (a : App) : status (set_status st a) = st.
Proof. done. Qed.

Lemma stable_log_modules (ms : list ModuleReport) : stable status (log_modules ms).
Proof. induction ms as [|m ms IH]; cbn [log_modules]; eauto with stable. Qed.

Lemma stable_all2 (a b : M App unit) :
  stable status a -> stable status b -> stable status (all2 a b).
Proof.
  intros Ha Hb. unfold all2.
  apply stable_bind; [eauto with stable|]. intros oa.
  apply stable_bind; [eauto with stable|]. intros ob.
  destruct oa, ob; eauto with stable.
Qed.

Lemma stable_caught (m : M App unit) : stable status m -> stable status (caught m).
Proof. intros Hm. unfold caught. eauto with stable. Qed.

Lemma app_setup_noop (w : World App) :
  status (self w) <> unready -> setup w = (Resolved tt, w).
Proof.
  intros H. unfold setup. unfold bind at 1. unfold gets.
  by rewrite bool_decide_eq_false_2.
Qed.

Lemma app_destroy_noop (reason : string) (w : World App) :
  status (self w) <> ready -> destroy reason w = (Resolved tt, w).
Proof.
  intros H. unfold destroy. unfold bind at 1. unfold gets.
  by rewrite bool_decide_eq_false_2.
Qed.

#[local] Hint Resolve stable_log_modules stable_all2 stable_caught : stable.

Lemma app_setup_view (w : World App) :
  status (self w) = unready ->
  let h := statuses (trace w) in
  let v := lifecycle_view status (snd (setup w)) in
  v = (preparing, h ++ [preparing]) \/ v = (ready, (h ++ [preparing]) ++ [ready]).
Proof.
  intros H h v. subst v.
  set (P := fun v : Status * list Status =>
              v = (preparing, h ++ [preparing]) \/ v = (ready, (h ++ [preparing]) ++ [ready])).
  change (P (lifecycle_view status (snd (setup w)))).
  unfold setup. unfold bind at 1. unfold gets.
  rewrite H. rewrite bool_decide_eq_true_2 by done.
  cbn [negb]. unfold assign_status.
  assert (lifecycle_view status w = (unready, h)) as Hv0.
  { unfold lifecycle_view. by rewrite H. }
  walk app_status_set.
Qed.

Lemma app_destroy_view (reason : string) (w : World App) :
  status (self w) = ready ->
  let h := statuses (trace w) in
  let v := lifecycle_view status (snd (destroy reason w)) in
  v = (destroying, h ++ [destroying]) \/ v = (destroyed, (h ++ [destroying]) ++ [destroyed]).
Proof.
  intros H h v. subst v.
  set (P := fun v : Status * list Status =>
              v = (destroying, h ++ [destroying]) \/
              v = (destroyed, (h ++ [destroying]) ++ [destroyed])).
  change (P (lifecycle_view status (snd (destroy reason w)))).
  unfold destroy. unfold bind at 1. unfold gets.
  rewrite H. rewrite bool_decide_eq_true_2 by done.
  cbn [negb]. unfold assign_status.
  assert (lifecycle_view status w = (ready, h)) as Hv0.
  { unfold lifecycle_view. by rewrite H. }
  walk app_status_set.
  right. unfold lifecycle_view, bind, modify, emit in *. cbn.
  rewrite statuses_app. cbn.
  match goal with
  | Hv : (_, statuses (trace ?w)) = _ |- context [statuses (trace ?w)] =>
      by injection Hv as _ ->
  end.
Qed.

Lemma app_lifecycle_on_chain (c : LifecycleCall) (w : World App) :
  on_chain (lifecycle_view status w) ->
  on_chain (lifecycle_view status (exec (lifecycle c) w)).
Proof.
  intros Hw. unfold exec. destruct c as [|reason]; cbn [lifecycle];
    rewrite attempt_resolves; cbn [snd].
  - destruct (decide (status (self w) = unready)) as [Hs|Hs].
    + unfold on_chain, lifecycle_view in Hw. cbn in Hw. rewrite Hs in Hw.
      destruct (app_setup_view w Hs) as [-> | ->]; rewrite Hw; done.
    + by rewrite app_setup_noop.
  - destruct (decide (status (self w) = ready)) as [Hs|Hs].
    + unfold on_chain, lifecycle_view in Hw. cbn in Hw. rewrite Hs in Hw.
      destruct (app_destroy_view reason w Hs) as [-> | ->]; rewrite Hw; done.
    + by rewrite app_destroy_noop.
Qed.

Lemma app_lifecycle_all_on_chain (cs : list LifecycleCall) (w : World App) :
  on_chain (lifecycle_view status w) ->
  on_chain (lifecycle_view status (exec (lifecycle_all cs) w)).
Proof.
  revert w. induction cs as [|c cs IH]; intros w Hw; [exact Hw|].
  cbn [lifecycle_all]. unfold exec, bind.
  pose proof (app_lifecycle_on_chain c w Hw) as Hc. unfold exec in Hc.
  destruct c; cbn [lifecycle] in *; rewrite attempt_resolves in *; by apply IH.
Qed.

End AppFacts.

(** C7.  For the guild assistant and for the app alike: [setup()] on an
    object that is not [unready], and [destroy()] on one that is not
    [ready], return at once, leaving the object and the trace as they were;
    and whatever lifecycle calls are made on a newly constructed object, and
    however its collaborators answer, the statuses it has had are an initial
    stretch of unready, preparing, ready, destroying, destroyed, ending at
    its current status. *)
Theorem lifecycle_moves_forward :
  (forall (B : Type) (serialize : list B -> string) (md5 : string -> string)
          (cs : list B) (w : World GuildAssistant.Assistant),
     GuildAssistant.status (self w) <> unready ->
     GuildAssistant.setup B serialize md5 cs w = (Resolved tt, w)) /\
  (forall w : World GuildAssistant.Assistant,
     GuildAssistant.status (self w) <> ready ->
     GuildAssistant.destroy w = (Resolved tt, w)) /\
  (forall (B : Type) (serialize : list B -> string) (md5 : string -> string)
          (calls : list (GuildAssistant.LifecycleCall B))
          (assistant : GuildAssistant.Assistant) (o : list (option Error)),
     GuildAssistant.status assistant = unready ->
     let w := exec (GuildAssistant.lifecycle_all B serialize md5 calls)
                (mkWorld assistant [] o) in
     exists n : nat,
       history w = take (S n) lifecycle_chain /\
       lifecycle_chain !! n = Some (GuildAssistant.status (self w))) /\
  (forall w : World App.App,
     App.status (self w) <> unready -> App.setup w = (Resolved tt, w)) /\
  (forall (reason : string) (w : World App.App),
     App.status (self w) <> ready -> App.destroy reason w = (Resolved tt, w)) /\
  (forall (calls : list App.LifecycleCall) (app : App.App) (o : list (option Error)),
     App.status app = unready ->
     let w := exec (App.lifecycle_all calls) (mkWorld app [] o) in
     exists n : nat,
       history w = take (S n) lifecycle_chain /\
       lifecycle_chain !! n = Some (App.status (self w))).
Proof.
  repeat split.
  - intros. by apply guild_setup_noop.
  - apply guild_destroy_noop.
  - intros B serialize md5 calls assistant o Hs w.
    apply (on_chain_history (GuildAssistant.status (self w)) (statuses (trace w))).
    apply (guild_lifecycle_all_on_chain serialize md5 calls (mkWorld assistant [] o)).
    unfold on_chain, lifecycle_view. cbn. by rewrite Hs.
  - apply app_setup_noop.
  - apply app_destroy_noop.
  - intros calls app o Hs w.
    apply (on_chain_history (App.status (self w)) (statuses (trace w))).
    apply (app_lifecycle_all_on_chain calls (mkWorld app [] o)).
    unfold on_chain, lifecycle_view. cbn. by rewrite Hs.
Qed.

(** C6, as stated, fails when the registration call is rejected: the
    digest differs, the call is issued, and nothing is persisted. *)
Lemma rejected_registration_not_persisted :
  let assistant := GuildAssistant.constructor Commands.alice "guild" true ∅ in
  let w := exec (GuildAssistant.updateSlashCommands string (String.concat ",") (String.append "md5:")
                   ["ping"; "pong"])
             (mkWorld assistant [] [None; Some "503 Service Unavailable"]) in
  trace w = [Hook "commandsUpdate"; RestPut "ping,pong"] /\
  GuildAssistant.data (self w) !! "slash" = None.
Proof. vm_compute. split; reflexivity. Qed.

(** ** transcribe *)

Section TranscribeFacts.
Import GuildAssistant.

Lemma engine_work_trace (steps : list EngineStep) (w : World STTRequest) :
  audio_prepare (self w) = prepare_hook ->
  exists d : list Action,
    trace (exec (engine_work steps) w) = trace w ++ d /\
    audio_prepare (self (exec (engine_work steps) w)) = prepare_hook /\
    count is_hook d <= prepares steps /\
    count is_submission d = 0 /\
    (forall rest : list EngineStep,
       steps = await_prepare :: rest -> exists d' : list Action, d = Hook "transcribe" :: d').
Proof.
  revert w. induction steps as [|s steps IH]; intros w Hw.
  - exists []. cbn. rewrite app_nil_r. repeat split; try done.
  - destruct s; cbn [prepares].
    + destruct (next_outcome (oracle w)) as [e|] eqn:E.
      * assert (exec (engine_work (await_prepare :: steps)) w =
                  mkWorld (self w) (trace w ++ [Hook "transcribe"]) (tail (oracle w))) as ->.
        { cbn [engine_work engine_step]. unfold run_prepare, exec, bind, gets.
          by rewrite Hw, (call_rejects _ w e E). }
        exists [Hook "transcribe"]. cbn.
        repeat split; try done; try lia. intros rest _. by exists [].
      * assert (exec (engine_work (await_prepare :: steps)) w =
                  exec (engine_work steps)
                    (mkWorld (self w) (trace w ++ [Hook "transcribe"]) (tail (oracle w)))) as ->.
        { cbn [engine_work engine_step]. unfold run_prepare, exec, bind, gets.
          by rewrite Hw, (call_resolves _ w E). }
        destruct (IH (mkWorld (self w) (trace w ++ [Hook "transcribe"]) (tail (oracle w))) Hw)
          as (d & Ht & Hp & Hh & Hs & _).
        exists (Hook "transcribe" :: d).
        rewrite Ht, Hp. cbn. rewrite <- app_assoc.
        repeat split; try done; try lia. intros rest _. by exists d.
    + assert (exec (engine_work (read_audio :: steps)) w =
                exec (engine_work steps)
                  (mkWorld (self w) (trace w ++ [AudioRead]) (oracle w))) as -> by done.
      destruct (IH (mkWorld (self w) (trace w ++ [AudioRead]) (oracle w)) Hw)
        as (d & Ht & Hp & Hh & Hs & _).
      exists (AudioRead :: d).
      rewrite Ht, Hp. cbn. rewrite <- app_assoc.
      repeat split; try done.
Qed.

(** C9 (as amended).  [transcribe()] fires no hook itself: it installs
    the [transcribe] hook as [request.audio.prepare] and hands the request to
    the engine, returning the engine's answer.  All that follows the
    hand-over is the engine's doing: the hook fires when, and as often as,
    the engine awaits [prepare()], so never before the request was handed
    over, and not at all for an engine that does not call it.  For an engine
    that awaits [prepare()] first, the hook is the first thing to happen
    after the hand-over, before any read of the audio. *)
Theorem transcribe_installs_hook (stt : ISpeechToText) (w : World STTRequest) :
  let w' := exec (transcribe stt) w in
  fst (transcribe stt w) = Resolved (accepts stt) /\
  audio_prepare (self w') = prepare_hook /\
  exists d : list Action,
    trace w' = trace w ++ [FallbackVoice; SttTranscribe] ++ d /\
    count is_hook d <= prepares (work stt) /\
    count is_submission d = 0 /\
    (forall rest : list EngineStep,
       work stt = await_prepare :: rest ->
       exists d' : list Action, d = Hook "transcribe" :: d').
Proof.
  cbn zeta. unfold transcribe, stt_transcribe. unfold_monad.
  destruct (engine_work_trace (work stt)
              (mkWorld {| audio_prepare := prepare_hook |}
                 ((trace w ++ [FallbackVoice]) ++ [SttTranscribe]) (oracle w)) eq_refl)
    as (d & Ht & Hp & Hh & Hs & Hfirst).
  unfold exec in Ht, Hp.
  destruct (engine_work (work stt) _) as [o w1]. cbn in *.
  split; [done|]. split; [exact Hp|].
  exists d. rewrite Ht, <- !app_assoc. done.
Qed.

(** C9, as stated, fails: even with an engine that awaits [prepare()]
    before it reads the audio, the hook fires after the request was handed to
    the engine; and with an engine that reads the audio straight away the
    hook does not fire at all. *)
Lemma hook_fires_after_submission :
  let request := mkWorld {| audio_prepare := prepare_unset |} [] [] in
  trace (exec (transcribe careful_engine) request) =
    [FallbackVoice; SttTranscribe; Hook "transcribe"; AudioRead] /\
  trace (exec (transcribe hasty_engine) request) =
    [FallbackVoice; SttTranscribe; AudioRead].
Proof. vm_compute. split; reflexivity. Qed.

Lemma transcribe_installs_hook_witness :
  exists d' : list Action,
    drop 2 (trace (exec (transcribe careful_engine)
                     (mkWorld {| audio_prepare := prepare_unset |} [] []))) =
      Hook "transcribe" :: d'.
Proof.
  destruct (transcribe_installs_hook careful_engine
              (mkWorld {| audio_prepare := prepare_unset |} [] []))
    as (_ & _ & d & Ht & _ & _ & Hfirst).
  destruct (Hfirst [read_audio] eq_refl) as (d' & ->).
  exists d'. rewrite Ht. reflexivity.
Defined.

End TranscribeFacts.

(** ** The theorems at sample inputs *)

Lemma reply_notifies_first_witness :
  let c := Commands.text_context Commands.alice (Commands.ping (Commands.Return None) []) in
  let w := Commands.event_after c [Commands.Notify None] [] in
  trace (exec (Commands.event_reply c "pong" None) w) = trace w ++ [MessageReply "pong"].
Proof.
  intros c w.
  refine (proj1 (proj2 (proj2 (reply_notifies_first c "pong" None w))) _ _).
  - vm_compute. reflexivity.
  - left. vm_compute. discriminate.
Defined.

Lemma sync_skips_known_hash_witness :
  let update := GuildAssistant.updateSlashCommands string (String.concat ",")
                  (String.append "md5:") in
  let w := mkWorld (GuildAssistant.constructor Commands.alice "guild" true ∅) [] [] in
  let w1 := exec (update ["ping"; "pong"]) w in
  GuildAssistant.data (self w1) !! "slash" = Some "md5:ping,pong" /\
  count GuildAssistant.is_registration (trace (exec (update ["ping"; "pong"]) w1)) =
    count GuildAssistant.is_registration (trace w1).
Proof.
  intros update w w1. split; [vm_compute; reflexivity|].
  refine (proj2 (sync_skips_known_hash (String.concat ",") (String.append "md5:")
                   ["ping"; "pong"] w) w1 _).
  vm_compute. reflexivity.
Defined.

Lemma lifecycle_moves_forward_witness :
  let calls := [GuildAssistant.call_destroy; GuildAssistant.call_setup ["ping"];
                GuildAssistant.call_setup ["ping"]; GuildAssistant.call_destroy;
                GuildAssistant.call_setup []] in
  let w := exec (GuildAssistant.lifecycle_all string (String.concat ",") (String.append "md5:")
                   calls)
             (mkWorld (GuildAssistant.constructor Commands.alice "guild" true ∅) [] []) in
  exists n : nat,
    history w = take (S n) lifecycle_chain /\
    lifecycle_chain !! n = Some (GuildAssistant.status (self w)).
Proof.
  intros calls w.
  refine (proj1 (proj2 (proj2 lifecycle_moves_forward)) string (String.concat ",")
            (String.append "md5:") calls
            (GuildAssistant.constructor Commands.alice "guild" true ∅) [] _).
  reflexivity.
Defined.

(** * Further properties of the command pipeline *)

Section MoreCommandFacts.
Import Commands.

#[local] Arguments command_execute : simpl never.
#[local] Arguments event_notify : simpl never.

Ltac open_ops :=
  unfold event_reply, event_notify, slash_reply, text_reply, voice_reply, slash_notify,
    text_notify, voice_notify, voice_message_notify, elapse, placeholder,
    reply_failure_unless_replied, interaction_reply, clearTimeout, setTimeout;
  unfold_monad.

Ltac settle_all := repeat settle_call.


Ltac tally_arith := rewrite ?count_app; cbn; lia.

Lemma notify_tally (c : EventContext) (result : option Result) (w : World Invocation)
  (i b : nat) :
  event_type c <> voice ->
  tally i b w ->
  tally i b (exec (event_notify c result) w) /\
  notified (self (exec (event_notify c result) w)) = true.
Proof.
  unfold tally. intros Hc [Hi Hb].
  destruct w as [[n r m t clock] tr o], c as [[] mid cid]; [| |done];
    destruct result as [[]|]; cbn in Hi, Hb; open_ops;
    destruct n, r; cbn; settle_all; repeat split; try tally_arith.
Qed.

Lemma reply_tally (c : EventContext) (options : string) (result : option Result)
  (w : World Invocation) (i b : nat) :
  event_type c <> voice ->
  tally i b w ->
  tally i b (exec (event_reply c options result) w).
Proof.
  unfold tally. intros Hc [Hi Hb].
  destruct w as [[n r m t clock] tr o], c as [[] mid cid]; [| |done];
    destruct result as [[]|]; cbn in Hi, Hb; open_ops;
    destruct n, r; cbn; settle_all; repeat split; try tally_arith.
Qed.

Lemma elapse_tally (ms : N) (w : World Invocation) (i b : nat) :
  tally i b w -> tally i b (exec (elapse ms) w).
Proof.
  unfold tally. intros [Hi Hb].
  destruct w as [[n r m t clock] tr o]. cbn in Hi, Hb. open_ops.
  destruct t as [|d| |]; cbn; try done.
  destruct (d <=? clock + ms)%N; cbn; [|done].
  settle_all; split; tally_arith.
Qed.

Lemma run_body_tally (c : EventContext) (body : Body) (w : World Invocation) (i b : nat) :
  event_type c <> voice ->
  tally i b w ->
  tally i b (exec (run_body c body) w).
Proof.
  intros Hc. revert w. induction body as [v|e|r k IH|p r k IH|ms k IH]; intros w Hw;
    cbn [run_body]; try exact Hw.
  - unfold exec, bind, attempt.
    pose proof (proj1 (notify_tally c r w i b Hc Hw)) as Hn. unfold exec in Hn.
    destruct (event_notify c r w) as [o w1]. by apply IH.
  - unfold exec, bind, attempt.
    pose proof (reply_tally c p r w i b Hc Hw) as Hn. unfold exec in Hn.
    destruct (event_reply c p r w) as [o w1]. by apply IH.
  - unfold exec, bind. rewrite elapse_resolves. by apply IH, elapse_tally.
Qed.

Lemma tally_emit (a : Action) (w : World Invocation) (i b : nat) :
  is_indicator a = false -> is_beep a = false ->
  tally i b w -> tally i b (mkWorld (self w) (trace w ++ [a]) (oracle w)).
Proof.
  unfold tally. intros Ha Hb [Hi Hc]. cbn. rewrite !count_app. cbn.
  rewrite Ha, Hb. lia.
Qed.

Lemma at_execute_tally (command : Command) (source : Source) (c : EventContext)
  (w w1 : World Invocation) (i b : nat) :
  at_execute command source w = Some (c, w1) ->
  tally i b w -> tally i b w1.
Proof.
  destruct source as [s|s|s]; cbn [at_execute].
  - destruct (interaction_channel s); [|done]. intros [= <- <-]. done.
  - unfold resolve_member. destruct (message_member s) as [m|].
    + cbn. destruct (permissions_has _ _); [|done]. by intros [= <- <-].
    + unfold_monad. settle_call; [done|].
      destruct (permissions_has _ _); [|done]. intros [= <- <-] Hw.
      by apply (tally_emit (MembersFetch (author_id s)) w).
  - destruct (permissions_has _ _); [|done]. by intros [= <- <-].
Qed.

Lemma command_execute_tally (c : EventContext) (command : Command) (w : World Invocation)
  (i b : nat) :
  event_type c <> voice ->
  tally i b w ->
  tally i b (exec (command_execute c command) w).
Proof.
  intros Hc Hw. unfold command_execute, exec, bind, emit.
  apply (run_body_tally c (execute command)); [exact Hc|].
  by apply (tally_emit (Execute (command_id command)) w).
Qed.

Lemma after_return_tally (source : Source) (w : World Invocation) (i b : nat) :
  tally i b w ->
  after_return source w = (Resolved tt, exec (after_return source) w) /\
  tally i b (exec (after_return source) w).
Proof.
  intros Hw. destruct source; cbn [after_return]; [|done|done].
  unfold clearTimeout. unfold_monad. destruct w as [[n r m t clock] tr o]. cbn.
  by destruct t.
Qed.

(** Where an invocation whose body returned ends: the world [event.notify]
    left, with the info line and, last, the log of a rejected notify. *)
Lemma run_returned (command : Command) (source : Source) (c : EventContext)
  (v : option bool) (w w1 w2 : World Invocation) :
  at_execute command source w = Some (c, w1) ->
  command_execute c command w1 = (Resolved v, w2) ->
  let wn := exec (event_notify c (Some (to_result v))) (exec (after_return source) w2) in
  exists tail : list Action,
    exec (run command source) w =
      mkWorld (self wn)
        (trace wn ++
         Log level_info [Text (log_line source command (result_name (to_result v)));
                         Options (log_options source command)] :: tail)
        (oracle wn) /\
    rejection_log tail.
Proof.
  intros Hat Hex wn. subst wn.
  rewrite (run_after_execute _ _ _ _ _ _ _ Hat Hex). cbn zeta.
  assert (after_return source w2 = (Resolved tt, exec (after_return source) w2)) as Hr.
  { destruct source; cbn [after_return]; [|done|done].
    unfold clearTimeout. unfold_monad. by destruct (timer (self w2)). }
  unfold exec in *. unfold bind, attempt, emit, ret, log_rejection.
  destruct (after_return source w2) as [oa wa]. cbn in Hr. injection Hr as ->. cbn.
  generalize (Some (to_result v)). intros r.
  destruct (event_notify c r wa) as [[[]|e] wn]; cbn; unfold rejection_log.
  - exists []. eauto.
  - exists [Log level_error [Cause e]]. rewrite <- app_assoc. eauto.
Qed.

(** On the slash and text paths a command whose body returns is answered
    with exactly one result indicator and exactly one cue, whatever the body
    did with [notify] and [reply] and however the platform answered. *)
Theorem returned_body_notifies_once (command : Command) (source : Source)
  (c : EventContext) (v : option bool) (w w1 w2 : World Invocation) :
  at_execute command source w = Some (c, w1) ->
  event_type c <> voice ->
  notified (self w) = false ->
  command_execute c command w1 = (Resolved v, w2) ->
  let final := exec (run command source) w in
  count is_indicator (trace final) = count is_indicator (trace w) + 1 /\
  count is_beep (trace final) = count is_beep (trace w) + 1.
Proof.
  intros Hat Hc Hn Hex final. subst final.
  destruct (run_returned _ _ _ _ _ _ _ Hat Hex) as (tail & -> & Htail).
  assert (tally (count is_indicator (trace w)) (count is_beep (trace w)) w) as Hw.
  { unfold tally. rewrite Hn. lia. }
  pose proof (at_execute_tally _ _ _ _ _ _ _ Hat Hw) as H1.
  pose proof (command_execute_tally c command w1 _ _ Hc H1) as H2.
  unfold exec in H2. rewrite Hex in H2. cbn in H2.
  destruct (after_return_tally source w2 _ _ H2) as [_ H3].
  destruct (notify_tally c (Some (to_result v)) _ _ _ Hc H3) as [[Hi Hb] Hd].
  rewrite Hd in Hi, Hb. cbn [trace]. rewrite !count_app, Hi, Hb.
  destruct Htail as [->|[e ->]]; cbn; lia.
Qed.

Lemma returned_body_notifies_once_witness :
  let body := AwaitReply "pong" None
                (fun _ => AwaitNotify (Some failure) (fun _ => Return (Some false))) in
  let final := invoke (ping body []) (by_message text_source) [] in
  count is_indicator (trace final) = 1 /\ count is_beep (trace final) = 1.
Proof.
  intros body final.
  refine (returned_body_notifies_once (ping body []) (by_message text_source)
            (text_context alice (ping body [])) (Some false)
            (start []) (start [])
            (exec (command_execute (text_context alice (ping body [])) (ping body [])) (start []))
            eq_refl _ eq_refl _).
  - vm_compute. discriminate.
  - vm_compute. reflexivity.
Defined.

(** *** The placeholder *)

Lemma notify_placeholders (c : EventContext) (result : option Result) (w : World Invocation)
  (n : nat) :
  placeholders n w -> placeholders n (exec (event_notify c result) w).
Proof.
  unfold placeholders.
  destruct w as [[nt r m t clock] tr o], c as [[] mid cid];
    destruct result as [[]|]; cbn; intros H; open_ops;
    destruct nt, r, m; cbn; settle_all; rewrite ?count_app; cbn; lia.
Qed.

Lemma reply_placeholders (c : EventContext) (options : string) (result : option Result)
  (w : World Invocation) (n : nat) :
  placeholders n w -> placeholders n (exec (event_reply c options result) w).
Proof.
  unfold placeholders.
  destruct w as [[nt r m t clock] tr o], c as [[] mid cid];
    destruct result as [[]|]; cbn; intros H; open_ops;
    destruct nt, r, m; cbn; settle_all; rewrite ?count_app; cbn; lia.
Qed.

Lemma elapse_placeholders (ms : N) (w : World Invocation) (n : nat) :
  placeholders n w -> placeholders n (exec (elapse ms) w).
Proof.
  unfold placeholders. destruct w as [[nt r m t clock] tr o]. cbn. intros H. open_ops.
  destruct t as [|d| |]; cbn in *; try done.
  destruct (d <=? clock + ms)%N; cbn; [|done].
  settle_all; rewrite ?count_app; cbn; lia.
Qed.

Lemma run_body_placeholders (c : EventContext) (body : Body) (w : World Invocation) (n : nat) :
  placeholders n w -> placeholders n (exec (run_body c body) w).
Proof.
  revert w. induction body as [v|e|r k IH|p r k IH|ms k IH]; intros w Hw;
    cbn [run_body]; try exact Hw.
  - unfold exec, bind, attempt.
    pose proof (notify_placeholders c r w n Hw) as Hn. unfold exec in Hn.
    destruct (event_notify c r w) as [o w1]. by apply IH.
  - unfold exec, bind, attempt.
    pose proof (reply_placeholders c p r w n Hw) as Hn. unfold exec in Hn.
    destruct (event_reply c p r w) as [o w1]. by apply IH.
  - unfold exec, bind. rewrite elapse_resolves. by apply IH, elapse_placeholders.
Qed.

(** On the slash path the placeholder is sent only by the timer, and the
    timer fires at most once: an invocation adds one placeholder to the trace
    when its timer has fired, and none otherwise, whether the body returned
    or threw. *)
Theorem placeholder_only_when_fired (command : Command) (s : ChatInputCommandInteraction)
  (w : World Invocation) :
  timer (self w) = timer_unset ->
  let final := exec (runCommandByInteraction command s) w in
  count is_placeholder (trace final) =
    count is_placeholder (trace w) + fired (timer (self final)).
Proof.
  intros Ht final. subst final.
  change (placeholders (count is_placeholder (trace w))
            (exec (run command (interaction s)) w)).
  set (n := count is_placeholder (trace w)).
  destruct (interaction_channel s) as [ch|] eqn:Hch.
  2: { cbn [run]. unfold runCommandByInteraction. rewrite Hch.
       unfold placeholders, exec, ret. cbn. rewrite Ht. cbn. subst n. lia. }
  assert (at_execute command (interaction s) w =
            Some (slash_context s command, exec (setTimeout 2500) w)) as Hat.
  { cbn [at_execute]. by rewrite Hch. }
  set (c := slash_context s command) in *.
  set (w1 := exec (setTimeout 2500) w) in *.
  assert (placeholders n w1) as H1.
  { subst w1. unfold placeholders, setTimeout. unfold_monad. subst n. lia. }
  assert (placeholders n (exec (command_execute c command) w1)) as H2.
  { unfold command_execute, exec, bind, emit. apply run_body_placeholders.
    unfold placeholders in *. cbn. rewrite count_app. cbn. lia. }
  unfold exec in H2.
  destruct (command_execute c command w1) as [[v|e] w2] eqn:Hex; cbn in H2.
  - destruct (run_returned _ _ _ _ _ _ _ Hat Hex) as (tail & -> & Htail).
    assert (placeholders n (exec (after_return (interaction s)) w2)) as H3.
    { cbn [after_return]. unfold clearTimeout. unfold_monad. unfold placeholders in *.
      destruct w2 as [[nt r m t clock] tr o]. cbn in *. by destruct t. }
    pose proof (notify_placeholders c (Some (to_result v)) _ n H3) as H4.
    unfold placeholders in *. cbn [trace self]. rewrite count_app, H4.
    destruct Htail as [->|[e ->]]; cbn; lia.
  - rewrite (run_after_execute _ _ _ _ _ _ _ Hat Hex).
    unfold slash_catch. open_ops. unfold placeholders in *.
    destruct w2 as [[nt r m t clock] tr o]. cbn in *.
    destruct r; cbn; settle_all; rewrite ?count_app; cbn; lia.
Qed.

Lemma placeholder_only_when_fired_witness :
  let final := exec (runCommandByInteraction (ping (AwaitOther 2500 (Return None)) [])
                       slash_source) (start []) in
  count is_placeholder (trace final) = 0 + fired (timer (self final)).
Proof.
  exact (placeholder_only_when_fired (ping (AwaitOther 2500 (Return None)) [])
           slash_source (start []) eq_refl).
Defined.

(** *** The voice path's indicator message *)

Lemma perform_memoised (c : EventContext) (e : EventCall) (m : Message) (i b : nat)
  (w : World Invocation) :
  event_type c = voice ->
  memoised m i b w -> memoised m i b (exec (perform c e) w).
Proof.
  unfold memoised. intros Hc (Hm & Hi & Hb).
  destruct w as [[n r m0 t clock] tr o], c as [ty mid cid]. cbn in Hc, Hm, Hi, Hb.
  subst ty m0. destruct e as [result|options result|ms]; cbn [perform].
  - open_ops. destruct n; cbn; done.
  - open_ops. destruct n; cbn; settle_all; rewrite ?count_app; cbn; repeat split; try lia.
  - unfold exec. rewrite elapse_resolves. cbn [snd]. open_ops.
    destruct t as [|d| |]; cbn; try done.
    destruct (d <=? clock + ms)%N; cbn; [|done].
    settle_all; rewrite ?count_app; cbn; repeat split; try lia.
Qed.

(** On the voice path the indicator message is sent once: when it has
    been obtained, no later [notify] or [reply] of the body sends another
    indicator or plays another cue, and replies keep targeting that message. *)
Theorem voice_indicator_memoised (c : EventContext) (es : list EventCall) (m : Message)
  (w : World Invocation) :
  event_type c = voice ->
  message (self w) = Some m ->
  let w' := exec (perform_all c es) w in
  message (self w') = Some m /\
  count is_indicator (trace w') = count is_indicator (trace w) /\
  count is_beep (trace w') = count is_beep (trace w).
Proof.
  intros Hc Hm. cbn zeta.
  change (memoised m (count is_indicator (trace w)) (count is_beep (trace w))
            (exec (perform_all c es) w)).
  assert (memoised m (count is_indicator (trace w)) (count is_beep (trace w)) w) as Hw
    by done.
  revert Hw. generalize (count is_indicator (trace w)), (count is_beep (trace w)).
  intros i b. clear Hm. revert w. induction es as [|e es IH]; intros w Hw; [exact Hw|].
  rewrite perform_all_cons. by apply IH, perform_memoised.
Qed.

Lemma voice_indicator_memoised_witness :
  let c := voice_context voice_source (ping (Return None) []) in
  let w := event_after c [Reply "pong" None] [] in
  let w' := exec (perform_all c [Notify (Some failure); Reply "again" (Some failure)]) w in
  message (self w') = Some {| content := "<@42> `/ping` ✅" |} /\
  count is_indicator (trace w') = count is_indicator (trace w) /\
  count is_beep (trace w') = count is_beep (trace w).
Proof.
  intros c w w'.
  exact (voice_indicator_memoised c [Notify (Some failure); Reply "again" (Some failure)]
           {| content := "<@42> `/ping` ✅" |} w eq_refl eq_refl).
Defined.

(** *** The text path's member *)

(** On the text path, when the message carries no member and the member
    cannot be fetched, the command is not executed: the handler reacts with
    the failure emoji, plays the failure cue and logs the fetch error. *)
Theorem text_fetch_failure (command : Command) (s : TextMessage) (e : Error)
  (w : World Invocation) :
  message_member s = None ->
  next_outcome (oracle w) = Some e ->
  exists tail : list Action,
    trace (exec (runCommandByMessage command s) w) =
      trace w ++
      [MembersFetch (author_id s); MessageReact (emoji_string emoji_failure); Beep failure;
       Log level_error [Text (text_log s command "error");
                        Options (command_options command); Cause e]] ++ tail /\
    rejection_log tail.
Proof.
  intros Hm He. unfold runCommandByMessage, text_main, text_catch, resolve_member.
  rewrite Hm. unfold_monad. rewrite (call_rejects _ w e He). cbn.
  unfold rejection_log. settle_call; normalize; eauto.
Qed.

Lemma text_fetch_failure_witness :
  exists tail : list Action,
    trace (exec (runCommandByMessage (ping (Return None) [])
                   {| author_id := "7"; message_member := None; fetched_member := alice |})
             (start [Some "Unknown Member"])) =
      [] ++
      [MembersFetch "7"; MessageReact (emoji_string emoji_failure); Beep failure;
       Log level_error [Text "Text command error: 7 -> /ping";
                        Options ∅; Cause "Unknown Member"]] ++ tail /\
    rejection_log tail.
Proof.
  exact (text_fetch_failure (ping (Return None) [])
           {| author_id := "7"; message_member := None; fetched_member := alice |}
           "Unknown Member" (start [Some "Unknown Member"]) eq_refl eq_refl).
Defined.

(** *** How often the body runs *)

Lemma at_execute_executes (command : Command) (source : Source) (c : EventContext)
  (w w1 : World Invocation) :
  at_execute command source w = Some (c, w1) ->
  count is_execute (trace w1) = count is_execute (trace w).
Proof.
  destruct source as [s|s|s]; cbn [at_execute].
  - destruct (interaction_channel s); [|done]. intros [= <- <-]. done.
  - unfold resolve_member. destruct (message_member s) as [m|].
    + cbn. destruct (permissions_has _ _); [|done]. by intros [= <- <-].
    + unfold_monad. settle_call; [done|].
      destruct (permissions_has _ _); [|done]. intros [= <- <-]. cbn.
      rewrite count_app. cbn. lia.
  - destruct (permissions_has _ _); [|done]. by intros [= <- <-].
Qed.

Lemma after_return_trace (source : Source) (w : World Invocation) :
  trace (exec (after_return source) w) = trace w.
Proof.
  destruct source; cbn [after_return]; [|done|done].
  unfold clearTimeout. unfold_monad. by destruct (timer (self w)).
Qed.

(** An invocation calls [command.execute] once when its path gets to the
    call (the interaction has a channel; the member is known and passes the
    permission check), and not at all otherwise. *)
Theorem executes_at_most_once (command : Command) (source : Source) (w : World Invocation) :
  count is_execute (trace (exec (run command source) w)) =
    count is_execute (trace w) +
    match at_execute command source w with
    | Some _ => 1
    | None => 0
    end.
Proof.
  destruct (at_execute command source w) as [[c w1]|] eqn:Hat.
  - pose proof (at_execute_executes _ _ _ _ _ Hat) as H1.
    destruct (command_execute_trace c command w1) as (d & Hd & Fd).
    pose proof (count_event_actions _ d execute_not_event_action Fd) as Hdc.
    unfold exec in Hd.
    destruct (command_execute c command w1) as [[v|e] w2] eqn:Hex; cbn in Hd.
    + destruct (run_returned _ _ _ _ _ _ _ Hat Hex) as (tail & -> & Htail).
      destruct (notify_event_actions c (Some (to_result v)) (exec (after_return source) w2))
        as (dn & Hn & Fn).
      cbn [trace]. rewrite count_app, Hn, count_app, after_return_trace, Hd, count_app.
      rewrite (count_event_actions _ dn execute_not_event_action Fn). cbn. rewrite Hdc.
      destruct Htail as [->|[e ->]]; cbn; lia.
    + rewrite (run_after_execute _ _ _ _ _ _ _ Hat Hex).
      destruct (catch_trace command source e w2) as (tail & -> & Htail).
      rewrite !count_app, Hd, count_app. cbn. rewrite Hdc.
      assert (count is_execute (catch_indicator source w2) = 0) as ->.
      { destruct source; cbn; [by destruct (replied _)|done|done]. }
      destruct Htail as [->|[e' ->]]; cbn; lia.
  - destruct source as [s|s|s]; cbn [at_execute run] in *.
    + unfold runCommandByInteraction. destruct (interaction_channel s); [done|].
      cbn. lia.
    + unfold runCommandByMessage, text_main, text_catch, resolve_member in *.
      destruct (message_member s) as [m|].
      * cbn in Hat. destruct (permissions_has m _) eqn:Hp; [done|].
        unfold_monad. rewrite Hp. cbn. settle_all; rewrite ?count_app; cbn; lia.
      * unfold_monad_in Hat. unfold_monad.
        destruct (next_outcome (oracle w)) as [e|] eqn:E.
        -- rewrite (call_rejects _ w e E). cbn.
           settle_all; rewrite ?count_app; cbn; lia.
        -- rewrite (call_resolves _ w E) in Hat |- *. cbn in Hat |- *.
           destruct (permissions_has (fetched_member s) _) eqn:Hp; [done|].
           cbn. settle_all; rewrite ?count_app; cbn; lia.
    + unfold runCommandByAudio. destruct (permissions_has _ _); [done|].
      unfold_monad. rewrite ?count_app. cbn. lia.
Qed.

End MoreCommandFacts.

(** * Further properties of the speech *)

Section MoreSpeechFacts.
Import PlayableSpeech.

(** [generate()] never rejects, whatever generator the speech was built
    with: a rejection of the generator becomes an [error] event carrying the
    reason and leaves the speech without a response; a response the generator
    resolved to is the one the speech keeps, and is announced by [ready]. *)
Theorem generate_never_rejects (g : TTSRequest -> M PlayableSpeechImpl TTSResponse)
  (w : World PlayableSpeechImpl) :
  fst (generate g w) = Resolved tt /\
  (response (self w) = None ->
   match g (request (self w)) w with
   | (Resolved resp, w1) =>
       exec (generate g) w =
         mkWorld (set_response resp (self w1)) (trace w1 ++ [Emit "ready" None]) (oracle w1)
   | (Rejected e, w1) =>
       exec (generate g) w = mkWorld (self w1) (trace w1 ++ [Emit "error" (Some e)]) (oracle w1)
   end).
Proof.
  unfold generate. unfold_monad. destruct (response (self w)) as [r|]; [done|].
  destruct (g (request (self w)) w) as [[resp|e] w1]; cbn; done.
Qed.

Lemma generate_never_rejects_witness :
  exec (generate generator) (createSpeech {| text := "hi"; voice := "en" |} [None; Some "down"]) =
    mkWorld (new_speech {| text := "hi"; voice := "en" |})
      ([Hook "speak"; TtsGenerate "hi"] ++ [Emit "error" (Some "down")]) [].
Proof.
  exact (proj2 (generate_never_rejects generator
                  (createSpeech {| text := "hi"; voice := "en" |} [None; Some "down"]))
           eq_refl).
Defined.

End MoreSpeechFacts.

(** * Further properties of the lifecycle *)

Section MoreGuildFacts.
Import Commands GuildAssistant.
Context {B : Type} (serialize : list B -> string) (md5 : string -> string).

#[local] Abbreviation guild_setup := (setup B serialize md5).

Ltac open_lifecycle :=
  unfold setup, destroy, updateSlashCommands, assign_status; unfold_monad.

Lemma guild_destroy_world (w : World Assistant) :
  status (self w) = ready ->
  destroy w =
    (Resolved tt,
     mkWorld (set_status destroyed (self w))
       (trace w ++
        [SetStatus destroying; Hook "destroy"] ++ rejection (next_outcome (oracle w)) ++
        [Invoke "data.destroy"] ++ rejection (next_outcome (tail (oracle w))) ++
        [Invoke "voiceChannel.destroy"; Log level_info [Text "Destroyed"]; SetStatus destroyed])
       (tail (tail (oracle w)))).
Proof.
  intros Hs. destruct w as [a t o]. cbn in Hs. open_lifecycle. rewrite Hs.
  rewrite bool_decide_eq_true_2 by done. cbn.
  repeat settle_call; unfold ret, emit; normalize; reflexivity.
Qed.

(** [destroy()] on a ready assistant goes through the whole teardown
    whatever fails: the [destroy] hook, the datastore and the voice channel
    are each torn down, in that order, a rejection of the first two is only
    logged, and the call resolves with the assistant destroyed. *)
Theorem guild_destroy_runs_all (w : World Assistant) :
  status (self w) = ready ->
  destroy w =
    (Resolved tt,
     mkWorld (set_status destroyed (self w))
       (trace w ++
        [SetStatus destroying; Hook "destroy"] ++ rejection (next_outcome (oracle w)) ++
        [Invoke "data.destroy"] ++ rejection (next_outcome (tail (oracle w))) ++
        [Invoke "voiceChannel.destroy"; Log level_info [Text "Destroyed"]; SetStatus destroyed])
       (tail (tail (oracle w)))).
Proof.
  intros Hs. destruct w as [a t o]. cbn in Hs. open_lifecycle. rewrite Hs.
  rewrite bool_decide_eq_true_2 by done. cbn.
  repeat settle_call; unfold ret, emit; normalize; reflexivity.
Qed.

Ltac branch :=
  first
    [ settle_call
    | match goal with
      | |- context [if slash ?a then _ else _] => destruct (slash a) eqn:?
      | |- context [bool_decide ?P] => destruct (bool_decide P) eqn:?
      | |- context [(?n =? 0)%nat] => destruct (n =? 0)%nat eqn:?
      end; cbn ].

Ltac run_setup w Hs :=
  destruct w as [a t o]; cbn in Hs; open_lifecycle; rewrite Hs;
  rewrite (bool_decide_eq_true_2 _ eq_refl); cbn;
  repeat branch; unfold ret, emit; cbn.

Lemma guild_setup_ready_count (cs : list B) (w : World Assistant) :
  status (self w) = unready ->
  match guild_setup cs w with
  | (Resolved _, w') =>
      status (self w') = ready /\
      count (emits "ready") (trace w') = count (emits "ready") (trace w) + 1
  | (Rejected _, w') =>
      status (self w') = preparing /\
      count (emits "ready") (trace w') = count (emits "ready") (trace w)
  end.
Proof.
  intros Hs. run_setup w Hs.
  all: split; rewrite ?count_app; cbn; try lia; done.
Qed.

(** [setup()] on an unready assistant either resolves, and then the
    assistant is ready, has announced it once, and has logged one warning
    exactly when one of its required permissions is missing (the warning
    does not make the call fail); or it rejects, and then the assistant is
    left preparing, with no announcement and no warning. *)
Theorem guild_setup_outcome (cs : list B) (w : World Assistant) :
  status (self w) = unready ->
  let w' := exec (guild_setup cs) w in
  match fst (guild_setup cs w) with
  | Resolved _ =>
      status (self w') = ready /\
      count (emits "ready") (trace w') = count (emits "ready") (trace w) + 1 /\
      count (is_log level_warn) (trace w') =
        count (is_log level_warn) (trace w) +
        (if (length (missingPermissions (self w)) =? 0)%nat then 0 else 1)
  | Rejected _ =>
      status (self w') = preparing /\
      count (emits "ready") (trace w') = count (emits "ready") (trace w) /\
      count (is_log level_warn) (trace w') = count (is_log level_warn) (trace w)
  end.
Proof.
  intros Hs. cbn zeta. unfold missingPermissions. run_setup w Hs.
  all: repeat split; rewrite ?count_app; cbn; rewrite ?Hs; try lia; try done.
  all: unfold missingPermissions in *; cbn in *;
    repeat match goal with H : (_ =? 0)%nat = _ |- _ => rewrite H end; lia.
Qed.

Lemma guild_lifecycle_stuck (calls : list (LifecycleCall B)) (w : World Assistant) :
  status (self w) <> unready ->
  status (self w) <> ready ->
  exec (lifecycle_all B serialize md5 calls) w = w.
Proof.
  intros Hu Hr. induction calls as [|c calls IH]; [done|].
  cbn [lifecycle_all]. unfold exec, bind.
  destruct c as [cs|]; cbn [lifecycle]; rewrite attempt_resolves.
  - rewrite (guild_setup_noop serialize md5 cs w Hu). exact IH.
  - rewrite (guild_destroy_noop w Hr). exact IH.
Qed.

(** A guild assistant whose [setup()] rejected is stuck: it stays
    preparing, and no later [setup()] or [destroy()] does anything, so its
    subsystems are neither set up again nor torn down. *)
Theorem failed_setup_is_final (cs : list B) (calls : list (LifecycleCall B)) (e : Error)
  (w w' : World Assistant) :
  status (self w) = unready ->
  guild_setup cs w = (Rejected e, w') ->
  status (self w') = preparing /\
  exec (lifecycle_all B serialize md5 calls) w' = w'.
Proof.
  intros Hs Hw. pose proof (guild_setup_ready_count cs w Hs) as H.
  rewrite Hw in H. destruct H as [Hp _]. split; [exact Hp|].
  apply guild_lifecycle_stuck; rewrite Hp; discriminate.
Qed.

(** With [options.slash] off, [setup()] leaves the slash commands alone:
    no [commandsUpdate] hook, no registration call, and the datastore
    content is left as it was. *)
Theorem setup_without_slash (cs : list B) (w : World Assistant) :
  status (self w) = unready ->
  slash (self w) = false ->
  let w' := exec (guild_setup cs) w in
  data (self w') = data (self w) /\
  count is_registration (trace w') = count is_registration (trace w) /\
  count (hooks "commandsUpdate") (trace w') = count (hooks "commandsUpdate") (trace w).
Proof.
  intros Hs Hf. cbn zeta.
  destruct w as [a t o]; cbn in Hs, Hf; open_lifecycle; rewrite Hs;
    rewrite (bool_decide_eq_true_2 _ eq_refl); cbn.
  repeat settle_call; rewrite ?Hf; cbn; unfold ret, emit; cbn.
  all: try (destruct (length _ =? 0)%nat; cbn).
  all: repeat split; rewrite ?count_app; cbn; lia.
Qed.

Lemma guild_ready_invariant (calls : list (LifecycleCall B)) (w : World Assistant) (n : nat) :
  count (emits "ready") (trace w) = n + been_ready (status (self w)) ->
  count (emits "ready") (trace (exec (lifecycle_all B serialize md5 calls) w)) =
    n + been_ready (status (self (exec (lifecycle_all B serialize md5 calls) w))).
Proof.
  revert w. induction calls as [|c calls IH]; intros w Hw; [exact Hw|].
  cbn [lifecycle_all]. unfold exec, bind.
  destruct c as [cs|]; cbn [lifecycle]; rewrite attempt_resolves; apply IH.
  - destruct (decide (status (self w) = unready)) as [Hu|Hu].
    + pose proof (guild_setup_ready_count cs w Hu) as H.
      destruct (guild_setup cs w) as [[[]|e] w1]; destruct H as [H1 H2];
        cbn [snd]; rewrite H1, H2; rewrite Hu in Hw; cbn in *; lia.
    + by rewrite (guild_setup_noop serialize md5 cs w Hu).
  - destruct (decide (status (self w) = ready)) as [Hr|Hr].
    + rewrite (guild_destroy_world w Hr). cbn. rewrite Hr in Hw.
      rewrite !count_app. cbn.
      destruct (next_outcome (oracle w)), (next_outcome (tail (oracle w))); cbn in *; lia.
    + by rewrite (guild_destroy_noop w Hr).
Qed.

(** However [setup()] and [destroy()] are called on a new guild
    assistant, and whatever its collaborators answer, [ready] is announced at
    most once: once when the assistant has got as far as ready, never
    before. *)
Theorem guild_ready_at_most_once (calls : list (LifecycleCall B)) (w : World Assistant) :
  status (self w) = unready ->
  let w' := exec (lifecycle_all B serialize md5 calls) w in
  count (emits "ready") (trace w') =
    count (emits "ready") (trace w) + been_ready (status (self w')).
Proof.
  intros Hs. apply guild_ready_invariant. rewrite Hs. cbn. lia.
Qed.

End MoreGuildFacts.

Section MoreAppFacts.
Import App AppProcess.

Lemma log_modules_world (ms : list ModuleReport) (w : World App) :
  log_modules ms w =
    (Resolved tt,
     mkWorld (self w)
       (trace w ++ map (fun m => Log level_info [Text (report_line m)]) ms) (oracle w)).
Proof.
  revert w. induction ms as [|m ms IH]; intros w; cbn [log_modules map].
  - unfold ret. rewrite app_nil_r. by destruct w.
  - unfold bind, emit. rewrite IH. cbn. by rewrite <- app_assoc.
Qed.

Lemma count_report_lines (p : Action -> bool) (ms : list ModuleReport) :
  (forall args : list LogArg, p (Log level_info args) = false) ->
  count p (map (fun m => Log level_info [Text (report_line m)]) ms) = 0.
Proof. intros Hp. induction ms as [|m ms IH]; cbn; [done|]. by rewrite Hp, IH. Qed.

Ltac open_app :=
  unfold launch, on_halt, onFatal, setup, destroy, caught, all2, assign_status; unfold_monad.

Ltac step_app :=
  first [ settle_call | rewrite log_modules_world; cbn ].

Lemma app_setup_ready_count (w : World App) :
  status (self w) = unready ->
  match setup w with
  | (Resolved _, w') =>
      status (self w') = ready /\
      count (emits "ready") (trace w') = count (emits "ready") (trace w) + 1 /\
      count (invokes "process.exit(1)") (trace w') = count (invokes "process.exit(1)") (trace w)
  | (Rejected _, w') =>
      status (self w') = preparing /\
      count (emits "ready") (trace w') = count (emits "ready") (trace w) /\
      count (invokes "process.exit(1)") (trace w') = count (invokes "process.exit(1)") (trace w)
  end.
Proof.
  intros Hs. destruct w as [a t o]. cbn in Hs. open_app. rewrite Hs.
  rewrite (bool_decide_eq_true_2 _ eq_refl). cbn.
  repeat step_app; unfold ret, emit; cbn.
  all: split; [done|]; split; rewrite ?count_app; cbn;
    rewrite ?count_report_lines by done; lia.
Qed.

Lemma app_destroy_world (reason : string) (w : World App) :
  status (self w) = ready ->
  exists d : list Action,
    destroy reason w =
      (Resolved tt,
       mkWorld (set_status destroyed (self w)) (trace w ++ d)
         (tail (tail (tail (tail (oracle w)))))) /\
    count (hooks "destroy") d = 1 /\
    count (invokes "discord.destroy") d = 1 /\
    count (invokes "home.destroy") d = 1 /\
    count (invokes "data.destroy") d = 1 /\
    count (invokes "process.exit(1)") d = 0.
Proof.
  intros Hs. destruct w as [a t o]. cbn in Hs. open_app. rewrite Hs.
  rewrite (bool_decide_eq_true_2 _ eq_refl). cbn.
  repeat settle_call; unfold ret, emit; cbn; rewrite <- ?app_assoc; cbn;
    eexists; (split; [reflexivity|]); cbn; done.
Qed.

(** [App.destroy] on a ready app goes through the whole teardown
    whatever fails: the [destroy] hook, the Discord manager, the home
    assistant and the datastore are each torn down once, and the call
    resolves with the app destroyed. *)
Theorem app_destroy_runs_all (reason : string) (w : World App) :
  status (self w) = ready ->
  exists d : list Action,
    destroy reason w =
      (Resolved tt,
       mkWorld (set_status destroyed (self w)) (trace w ++ d)
         (tail (tail (tail (tail (oracle w)))))) /\
    count (hooks "destroy") d = 1 /\
    count (invokes "discord.destroy") d = 1 /\
    count (invokes "home.destroy") d = 1 /\
    count (invokes "data.destroy") d = 1.
Proof.
  intros Hs. destruct (app_destroy_world reason w Hs) as (d & H & H1 & H2 & H3 & H4 & _).
  exists d. done.
Qed.

(** [App.setup] on an unready app either resolves, with the app ready
    and [ready] announced once, or rejects, with the app left preparing and
    nothing announced. *)
Theorem app_setup_outcome (w : World App) :
  status (self w) = unready ->
  let w' := exec setup w in
  match fst (setup w) with
  | Resolved _ =>
      status (self w') = ready /\
      count (emits "ready") (trace w') = count (emits "ready") (trace w) + 1
  | Rejected _ =>
      status (self w') = preparing /\
      count (emits "ready") (trace w') = count (emits "ready") (trace w)
  end.
Proof.
  intros Hs. cbn zeta. pose proof (app_setup_ready_count w Hs) as H. unfold exec.
  destruct (setup w) as [[[]|e] w']; cbn; destruct H as (H1 & H2 & _); done.
Qed.

(** A halt signal always ends in [process.exit()], never in the fatal
    exit: on a ready app after the whole teardown, which leaves it destroyed;
    on an app in any other status at once, with nothing torn down. *)
Theorem halt_always_exits (signal : string) (w : World App) :
  let w' := exec (on_halt signal) w in
  fst (on_halt signal w) = Resolved tt /\
  exists d : list Action,
    trace w' = trace w ++ d ++ [Invoke "process.exit()"] /\
    count (invokes "process.exit(1)") d = 0 /\
    (if bool_decide (status (self w) = ready)
     then status (self w') = destroyed /\ count (invokes "data.destroy") d = 1
     else self w' = self w /\ d = []).
Proof.
  cbn zeta. unfold exec.
  destruct (decide (status (self w) = ready)) as [Hr|Hr].
  - rewrite (bool_decide_eq_true_2 _ Hr).
    destruct (app_destroy_world signal w Hr) as (d & Hw & _ & _ & _ & Hd & Hx).
    assert (on_halt signal w =
              (Resolved tt,
               mkWorld (set_status destroyed (self w))
                 ((trace w ++ d) ++ [Invoke "process.exit()"])
                 (tail (tail (tail (tail (oracle w))))))) as ->.
    { unfold on_halt, bind, attempt. by rewrite Hw. }
    cbn. split; [done|]. exists d. rewrite <- app_assoc. done.
  - rewrite (bool_decide_eq_false_2 _ Hr).
    assert (on_halt signal w =
              (Resolved tt,
               mkWorld (self w) (trace w ++ [Invoke "process.exit()"]) (oracle w))) as ->.
    { unfold on_halt, bind, attempt. by rewrite (app_destroy_noop signal w Hr). }
    cbn. split; [done|]. by exists [].
Qed.

(** [App.launch(app)] makes the process exit with code 1 exactly when
    [setup()] rejects, as the last thing it does, with the app left
    preparing; when [setup()] resolves the app is ready and nothing exits. *)
Theorem launch_exits_on_failure (w : World App) :
  status (self w) = unready ->
  let w' := exec launch w in
  fst (launch w) = Resolved tt /\
  match fst (setup w) with
  | Resolved _ =>
      status (self w') = ready /\
      count (invokes "process.exit(1)") (trace w') = count (invokes "process.exit(1)") (trace w)
  | Rejected _ =>
      status (self w') = preparing /\
      count (invokes "process.exit(1)") (trace w') =
        count (invokes "process.exit(1)") (trace w) + 1 /\
      last (trace w') = Some (Invoke "process.exit(1)")
  end.
Proof.
  intros Hs. cbn zeta. pose proof (app_setup_ready_count w Hs) as H. unfold exec.
  destruct (setup w) as [[[]|e] w1] eqn:Hw; cbn [fst]; destruct H as (H1 & _ & H3).
  - assert (launch w = (Resolved tt, w1)) as ->.
    { unfold launch, bind, attempt. by rewrite Hw. }
    done.
  - assert (launch w =
              (Resolved tt,
               mkWorld (self w1)
                 ((trace w1 ++ [Invoke ("console.error('[FATAL]', " +:+ e +:+ ")")]) ++
                  [Invoke "process.exit(1)"]) (oracle w1))) as ->.
    { unfold launch, bind, attempt. by rewrite Hw. }
    cbn [fst snd self trace]. split; [done|]. split; [done|].
    assert (invokes "process.exit(1)" (Invoke ("console.error('[FATAL]', " +:+ e +:+ ")")) =
              false) as Hne by reflexivity.
    rewrite !count_app, H3. cbn [count]. rewrite Hne. cbn. split; [lia|].
    by rewrite last_snoc.
Qed.

End MoreAppFacts.

(** * App.argv *)

Section ArgvFacts.
Import Argv.

Lemma flag_spelling (arg : string) : is_flag arg = true -> arg = "--" +:+ slice 2 arg.
Proof.
  unfold is_flag. intros H%String.prefix_correct.
  destruct arg as [|c1 [|c2 rest]]; try discriminate H.
  cbn in H. injection H as -> ->. reflexivity.
Qed.

Lemma flag_of_name (n : string) : is_flag ("--" +:+ n) = true /\ slice 2 ("--" +:+ n) = n.
Proof.
  split; [|done]. unfold is_flag. apply String.prefix_correct.
  cbn. by destruct n.
Qed.

Lemma scan_snoc (args : list string) (x : string) :
  scan (args ++ [x]) = step (scan args) x.
Proof. unfold scan. by rewrite fold_left_app. Qed.

Lemma flag_name_inj (n m : string) : "--" +:+ n = "--" +:+ m -> n = m.
Proof.
  intros H. unfold String.append in H. by injection H.
Qed.

Lemma not_flag_not_name (x n : string) : is_flag x = false -> x <> "--" +:+ n.
Proof. intros Hx ->. by rewrite (proj1 (flag_of_name n)) in Hx. Qed.

Lemma own_set (a : Argv) (n0 : string) (v : list string) (n : string) :
  plain n ->
  own (set a n0 v) !! n = if decide (n0 = n) then Some v else own a !! n.
Proof.
  intros [_ Hp]. unfold set. destruct (String.eqb_spec n0 "__proto__") as [->|Hn0]; cbn.
  - by rewrite decide_False.
  - destruct (decide (n0 = n)) as [->|Hne].
    + by rewrite lookup_insert_eq.
    + by rewrite lookup_insert_ne.
Qed.

Lemma get_plain (a : Argv) (n : string) : plain n -> get a n = own a !! n.
Proof. intros [_ Hp]. unfold get. by destruct (String.eqb_spec n "__proto__"). Qed.

(** The own property of a plain name after one turn of the loop. *)
Lemma step_own (nm : option string) (a : Argv) (x n : string) :
  plain n ->
  own (snd (step (nm, a) x)) !! n =
    if decide ((if is_flag x then Some (slice 2 x) else nm) = Some n)
    then Some (match own a !! n with Some l => l ++ [x] | None => [] end)
    else own a !! n.
Proof.
  intros Hn. unfold step. cbn [fst snd].
  destruct (if is_flag x then Some (slice 2 x) else nm) as [n0|] eqn:Hname; cbn.
  2: by rewrite decide_False.
  destruct n0 as [|c rest].
  { rewrite decide_False; [done|]. intros [= <-]. by destruct Hn. }
  cbn [snd]. destruct (decide (Some (String c rest) = Some n)) as [[= <-]|Hne].
  - rewrite (get_plain a _ Hn). destruct (own a !! String c rest) as [l|];
      rewrite (own_set _ _ _ _ Hn); by rewrite decide_True.
  - destruct (get a (String c rest)); rewrite (own_set _ _ _ _ Hn);
      rewrite decide_False; congruence.
Qed.

Lemma step_name (nm : option string) (a : Argv) (x : string) :
  fst (step (nm, a) x) = if is_flag x then Some (slice 2 x) else nm.
Proof.
  unfold step. cbn [fst snd].
  destruct (if is_flag x then Some (slice 2 x) else nm) as [[|c rest]|]; done.
Qed.

Lemma scan_keys (args : list string) : keys_of args (scan args).
Proof.
  induction args as [|x args IH] using rev_ind.
  - split.
    + intros n Hn. cbn. rewrite lookup_empty. split; [by intros [? ?]|].
      by intros ?%elem_of_nil.
    + by intros n.
  - rewrite scan_snoc. destruct (scan args) as [nm a]. destruct IH as [IH1 IH2].
    cbn [fst snd] in IH1, IH2. split.
    + intros n Hn. rewrite (step_own nm a x n Hn), elem_of_app, list_elem_of_singleton.
      destruct (is_flag x) eqn:Hx.
      * pose proof (flag_spelling x Hx) as Hsp.
        destruct (decide (Some (slice 2 x) = Some n)) as [[= Hs]|Hne].
        -- split; [intros _; right; by rewrite <- Hs|]. intros _. eauto.
        -- rewrite IH1 by done. split; [by left|]. intros [? | <-]; [done|].
           exfalso. apply Hne. by rewrite (proj2 (flag_of_name n)).
      * destruct (decide (nm = Some n)) as [->|Hne].
        -- destruct (IH2 n eq_refl) as [->|Hin]; [by destruct Hn|].
           split; [by left|]. intros _. apply IH1 in Hin; [|done].
           destruct Hin as [l ->]. eauto.
        -- rewrite IH1 by done. split; [by left|]. intros [? | <-]; [done|].
           by rewrite (proj1 (flag_of_name n)) in Hx.
    + intros n. rewrite step_name. cbn [fst]. rewrite elem_of_app, list_elem_of_singleton.
      destruct (is_flag x) eqn:Hx.
      * intros [= <-]. right. right. symmetry. by apply flag_spelling.
      * intros Hnm. destruct (IH2 n Hnm); eauto.
Qed.

(** The own properties of the result are the names of the flags given:
    a name other than the empty one and [__proto__] is a key of [argv]
    exactly when [--name] is among the arguments.  So [--debug] anywhere
    switches debugging on, and nothing else does. *)
Theorem argv_keys (args : list string) (n : string) :
  plain n ->
  is_Some (own (parse args) !! n) <-> "--" +:+ n ∈ args.
Proof. intros Hn. exact (proj1 (scan_keys args) n Hn). Qed.

Lemma argv_keys_witness :
  is_Some (own (parse ["--env"; "prod"; "--debug"]) !! "debug") <->
  "--debug" ∈ ["--env"; "prod"; "--debug"].
Proof.
  refine (argv_keys ["--env"; "prod"; "--debug"] "debug" _).
  split; discriminate.
Defined.

Lemma scan_no_flags (xs : list string) :
  Forall (fun x => is_flag x = false) xs -> scan xs = (None, empty).
Proof.
  induction xs as [|x xs IH] using rev_ind; [done|].
  intros [Hxs Hx]%Forall_app. specialize (IH Hxs).
  rewrite scan_snoc. rewrite IH.
  rewrite Forall_singleton in Hx. unfold step. cbn [fst snd]. rewrite Hx. done.
Qed.

(** Arguments that come before the first flag are dropped. *)
Theorem argv_skips_leading (xs rest : list string) :
  Forall (fun x => is_flag x = false) xs ->
  parse (xs ++ rest) = parse rest.
Proof.
  intros Hxs. unfold parse. f_equal. unfold scan at 1. rewrite fold_left_app.
  fold (scan xs). by rewrite (scan_no_flags xs Hxs).
Qed.

Lemma argv_skips_leading_witness :
  parse (["node"; "main.js"] ++ ["--env"; "prod"]) = parse ["--env"; "prod"].
Proof.
  refine (argv_skips_leading ["node"; "main.js"] ["--env"; "prod"] _).
  repeat constructor.
Defined.

Lemma values_follow (n : string) (vals : list string) (st : option string * Argv)
  (l : list string) :
  plain n ->
  fst st = Some n ->
  own (snd st) !! n = Some l ->
  Forall (fun x => is_flag x = false) vals ->
  fst (fold_left step vals st) = Some n /\
  own (snd (fold_left step vals st)) !! n = Some (l ++ vals).
Proof.
  intros Hn. revert st l. induction vals as [|x vals IH]; intros [nm a] l Hnm Hl Hv.
  - cbn. by rewrite app_nil_r.
  - apply Forall_cons in Hv as [Hx Hv]. cbn [fst snd] in Hnm, Hl. cbn [fold_left].
    destruct (step (nm, a) x) as [nm1 a1] eqn:Hstep.
    assert (nm1 = Some n) as Hnm1.
    { pose proof (step_name nm a x) as H. rewrite Hstep, Hx in H. cbn in H. congruence. }
    assert (own a1 !! n = Some (l ++ [x])) as Hl1.
    { pose proof (step_own nm a x n Hn) as H. rewrite Hstep, Hx, Hnm, Hl in H. cbn in H.
      by rewrite decide_True in H. }
    destruct (IH (nm1, a1) (l ++ [x]) Hnm1 Hl1 Hv) as [H1 H2].
    split; [exact H1|]. by rewrite H2, <- app_assoc.
Qed.

Lemma values_grow (n : string) (post : list string) (st : option string * Argv)
  (l : list string) :
  plain n ->
  own (snd st) !! n = Some l ->
  exists extra : list string, own (snd (fold_left step post st)) !! n = Some (l ++ extra).
Proof.
  intros Hn. revert st l. induction post as [|x post IH]; intros [nm a] l Hl.
  - exists []. cbn. by rewrite app_nil_r.
  - cbn [fold_left]. cbn [snd] in Hl.
    pose proof (step_own nm a x n Hn) as H. rewrite Hl in H.
    destruct (step (nm, a) x) as [nm1 a1]. cbn [snd] in H.
    destruct (decide _) in H.
    + destruct (IH (nm1, a1) (l ++ [x]) H) as [extra He].
      exists ([x] ++ extra). by rewrite He, <- app_assoc.
    + exact (IH (nm1, a1) l H).
Qed.

(** The arguments that follow the first occurrence of a flag, up to the
    next flag, are the first values of that flag, in the order given.  So
    [argv['env']?.[0]] is the argument right after the first [--env], when
    that argument is not itself a flag. *)
Theorem argv_first_values (pre vals post : list string) (n : string) :
  plain n ->
  "--" +:+ n ∉ pre ->
  Forall (fun x => is_flag x = false) vals ->
  exists extra : list string,
    own (parse (pre ++ ("--" +:+ n) :: vals ++ post)) !! n = Some (vals ++ extra).
Proof.
  intros Hn Hpre Hvals. unfold parse, scan.
  rewrite fold_left_app. fold (scan pre). cbn [fold_left]. rewrite fold_left_app.
  pose proof (proj1 (scan_keys pre) n Hn) as Hk.
  destruct (scan pre) as [nm a]. cbn [snd] in Hk.
  assert (own a !! n = None) as Hnone.
  { destruct (own a !! n) eqn:E; [|done]. exfalso. apply Hpre, Hk. eauto. }
  pose proof (step_own nm a ("--" +:+ n) n Hn) as Hown.
  pose proof (step_name nm a ("--" +:+ n)) as Hname.
  rewrite (proj1 (flag_of_name n)), (proj2 (flag_of_name n)) in Hown, Hname.
  rewrite Hnone, decide_True in Hown by done.
  destruct (values_follow n vals _ [] Hn Hname Hown Hvals) as [_ Hv].
  exact (values_grow n post _ _ Hn Hv).
Qed.

Lemma argv_first_values_witness :
  exists extra : list string,
    own (parse (["node"] ++ "--env" :: ["prod"; "eu"] ++ ["--debug"; "--env"; "x"])) !! "env" =
      Some (["prod"; "eu"] ++ extra).
Proof.
  refine (argv_first_values ["node"] ["prod"; "eu"] ["--debug"; "--env"; "x"] "env" _ _ _).
  - split; discriminate.
  - intros H. apply list_elem_of_singleton in H. discriminate H.
  - repeat constructor.
Defined.



End ArgvFacts.

(** * Sample runs of the lifecycle *)

Lemma guild_destroy_runs_all_witness :
  let w := exec (GuildAssistant.setup string (String.concat ",") (String.append "md5:") ["ping"])
             (sample_assistant false []) in
  GuildAssistant.destroy (mkWorld (self w) (trace w) [Some "hook failed"]) =
    (Resolved tt,
     mkWorld (GuildAssistant.set_status destroyed (self w))
       (trace w ++
        [SetStatus destroying; Hook "destroy"] ++ rejection (Some "hook failed") ++
        [Invoke "data.destroy"] ++ rejection None ++
        [Invoke "voiceChannel.destroy"; Log level_info [Text "Destroyed"]; SetStatus destroyed])
       []).
Proof.
  intros w. exact (guild_destroy_runs_all (mkWorld (self w) (trace w) [Some "hook failed"]) eq_refl).
Defined.

Lemma guild_setup_outcome_witness :
  let w := sample_assistant true [] in
  let w' := exec (GuildAssistant.setup string (String.concat ",") (String.append "md5:") ["ping"]) w in
  GuildAssistant.status (self w') = ready /\
  count (emits "ready") (trace w') = 0 + 1 /\
  count (Commands.is_log level_warn) (trace w') = 0 + 1.
Proof.
  intros w w'.
  exact (guild_setup_outcome (String.concat ",") (String.append "md5:") ["ping"] w eq_refl).
Defined.

Lemma failed_setup_is_final_witness :
  let w := sample_assistant true [None; Some "hook vetoed"] in
  let w' := exec (GuildAssistant.setup string (String.concat ",") (String.append "md5:") ["ping"]) w in
  GuildAssistant.status (self w') = preparing /\
  exec (GuildAssistant.lifecycle_all string (String.concat ",") (String.append "md5:")
          [GuildAssistant.call_setup ["ping"]; GuildAssistant.call_destroy]) w' = w'.
Proof.
  intros w w'.
  exact (failed_setup_is_final (String.concat ",") (String.append "md5:") ["ping"]
           [GuildAssistant.call_setup ["ping"]; GuildAssistant.call_destroy]
           "hook vetoed" w w' eq_refl eq_refl).
Defined.

Lemma setup_without_slash_witness :
  let w := sample_assistant false [] in
  let w' := exec (GuildAssistant.setup string (String.concat ",") (String.append "md5:") ["ping"]) w in
  GuildAssistant.data (self w') = GuildAssistant.data (self w) /\
  count GuildAssistant.is_registration (trace w') = count GuildAssistant.is_registration (trace w) /\
  count (hooks "commandsUpdate") (trace w') = count (hooks "commandsUpdate") (trace w).
Proof.
  intros w w'.
  exact (setup_without_slash (String.concat ",") (String.append "md5:") ["ping"] w
           eq_refl eq_refl).
Defined.

Lemma guild_ready_at_most_once_witness :
  let calls := [GuildAssistant.call_setup ["ping"]; GuildAssistant.call_setup ["ping"];
                GuildAssistant.call_destroy; GuildAssistant.call_setup ["ping"]] in
  let w := sample_assistant true [] in
  let w' := exec (GuildAssistant.lifecycle_all string (String.concat ",") (String.append "md5:")
                    calls) w in
  count (emits "ready") (trace w') = 0 + been_ready (GuildAssistant.status (self w')).
Proof.
  intros calls w w'.
  exact (guild_ready_at_most_once (String.concat ",") (String.append "md5:") calls w eq_refl).
Defined.

Lemma app_destroy_runs_all_witness :
  let w := exec App.setup (sample_app []) in
  exists d : list Action,
    App.destroy "SIGINT" (mkWorld (self w) (trace w) [None; Some "gateway closed"]) =
      (Resolved tt, mkWorld (App.set_status destroyed (self w)) (trace w ++ d) []) /\
    count (hooks "destroy") d = 1 /\
    count (invokes "discord.destroy") d = 1 /\
    count (invokes "home.destroy") d = 1 /\
    count (invokes "data.destroy") d = 1.
Proof.
  intros w.
  exact (app_destroy_runs_all "SIGINT" (mkWorld (self w) (trace w) [None; Some "gateway closed"])
           eq_refl).
Defined.

Lemma app_setup_outcome_witness :
  let w := sample_app [None; None; Some "plugins failed"] in
  App.status (self (exec App.setup w)) = preparing /\
  count (emits "ready") (trace (exec App.setup w)) = 0.
Proof. intros w. exact (app_setup_outcome w eq_refl). Defined.

Lemma launch_exits_on_failure_witness :
  let w := sample_app [Some "engines failed"] in
  let w' := exec AppProcess.launch w in
  fst (AppProcess.launch w) = Resolved tt /\
  App.status (self w') = preparing /\
  count (invokes "process.exit(1)") (trace w') = 0 + 1 /\
  last (trace w') = Some (Invoke "process.exit(1)").
Proof. intros w. exact (launch_exits_on_failure w eq_refl). Defined.

(** * The construction of the slash commands *)

Section SlashCommandFacts.
Import SlashCommands.
Context (toLanguage : Locale -> Locale) (discordLocales : list Locale).
Hypothesis toLanguage_idempotent : forall l : Locale, toLanguage (toLanguage l) = toLanguage l.

#[local] Abbreviation languages_from := (languages_from toLanguage).
#[local] Abbreviation languages := (languages toLanguage).
#[local] Abbreviation build_command := (build_command toLanguage discordLocales).
#[local] Abbreviation build_commands := (build_commands toLanguage discordLocales).
#[local] Abbreviation slash_command := (slash_command toLanguage discordLocales).

Lemma set_new (m : I18n) (l : Locale) (metadata : Metadata) :
  has m l = false -> set m l metadata = m ++ [(l, metadata)].
Proof.
  unfold has. induction m as [|[k v] m IH]; cbn; [done|].
  destruct (String.eqb k l); [done|]. intros H. by rewrite IH.
Qed.

Lemma set_not_nil (m : I18n) (l : Locale) (metadata : Metadata) : set m l metadata <> [].
Proof. destruct m as [|[k v] m]; cbn; [done|]. by destruct (String.eqb k l). Qed.

Lemma has_entry (m : I18n) (i : nat) (l : Locale) (metadata : Metadata) :
  m !! i = Some (l, metadata) -> has m l = true.
Proof.
  unfold has. revert i. induction m as [|[k v] m IH]; intros i; [done|].
  cbn [get]. destruct (String.eqb_spec k l) as [->|Hne]; [done|].
  destruct i as [|i]; cbn; [congruence|]. apply IH.
Qed.

Lemma get_app (m extra : I18n) (l : Locale) (metadata : Metadata) :
  get m l = Some metadata -> get (m ++ extra) l = Some metadata.
Proof.
  induction m as [|[k v] m IH]; cbn; [done|]. by destruct (String.eqb k l).
Qed.

(** The second loop comes to an end, and only adds entries at the end. *)
Lemma languages_from_total (n0 fuel i : nat) (m : I18n) :
  settled toLanguage n0 m ->
  i <= length m ->
  length m + (n0 - i) - i < fuel ->
  exists extra : I18n, languages_from fuel i m = Some (m ++ extra).
Proof.
  revert i m. induction fuel as [|fuel IH]; intros i m Hs Hi Hf; [lia|].
  cbn [SlashCommands.languages_from].
  destruct (m !! i) as [[l metadata]|] eqn:Hl.
  2: { exists []. by rewrite app_nil_r. }
  apply lookup_lt_Some in Hl as Hlt.
  destruct (has m (toLanguage l)) eqn:Hh.
  - apply IH; [done|lia|lia].
  - assert (i < n0) as Hin.
    { destruct (decide (i < n0)); [done|]. exfalso.
      rewrite (Hs i l metadata) in Hh by (done || lia).
      by rewrite (has_entry m i l metadata Hl) in Hh. }
    rewrite (set_new m _ metadata Hh).
    destruct (IH (S i) (m ++ [(toLanguage l, metadata)])) as [extra He].
    + intros j k v Hj Hk. destruct (decide (j < length m)) as [Hjm|Hjm].
      * rewrite lookup_app_l in Hk by done. by apply (Hs j k v).
      * rewrite lookup_app_r in Hk by lia.
        destruct (j - length m) as [|d]; cbn in Hk; [|by destruct d].
        injection Hk as <- _. apply toLanguage_idempotent.
    + rewrite length_app. cbn. lia.
    + rewrite length_app. cbn. lia.
    + exists ((toLanguage l, metadata) :: extra). rewrite He. by rewrite <- app_assoc.
Qed.

Lemma languages_total (m : I18n) : exists extra : I18n, languages m = Some (m ++ extra).
Proof.
  unfold SlashCommands.languages. apply (languages_from_total (length m)); [|lia|lia].
  intros j l metadata Hj Hl. apply lookup_lt_Some in Hl. lia.
Qed.

Lemma collect_from_nil (command : AttachedCommand)
  (entries : list (Locale * gmap string Description)) (m0 : I18n) :
  fold_left
    (fun m entry =>
       match snd entry !! name command with
       | None => m
       | Some d =>
           match to_metadata d with
           | None => m
           | Some metadata => set m (fst entry) metadata
           end
       end) entries m0 = [] <->
  m0 = [] /\ existsb (describes command) entries = false.
Proof.
  revert m0. induction entries as [|entry entries IH]; intros m0; cbn [fold_left existsb].
  - intuition.
  - rewrite IH. unfold describes at 2.
    destruct (snd entry !! name command) as [d|]; [|by cbn].
    destruct (to_metadata d) as [metadata|]; [|by cbn].
    cbn. split; [|by intros [_ ?]]. intros [H _]. by apply set_not_nil in H.
Qed.

Lemma collect_nil (command : AttachedCommand) :
  collect command = [] <-> described command = false.
Proof. unfold collect, described. rewrite collect_from_nil. intuition. Qed.

Lemma main_of_none (m : I18n) : main_of m = None <-> m = [].
Proof.
  unfold main_of. destruct m as [|[l metadata] m]; cbn; [done|].
  destruct (String.eqb l "en"); [done|]. by destruct (get m "en").
Qed.

(** A command is built from its map when the map is not empty. *)
Lemma build_command_total (command : AttachedCommand) :
  exists (m : I18n) (extra : I18n),
    m = collect command ++ extra /\
    (m = [] <-> collect command = []) /\
    build_command command =
      Some (match main_of m with
            | Some main => Some (slash_command command m main)
            | None => None
            end).
Proof.
  destruct (languages_total (collect command)) as [extra He].
  exists (collect command ++ extra), extra. split; [done|]. split.
  - split; [by intros [? _]%app_eq_nil|]. intros Hc.
    unfold SlashCommands.languages in He. rewrite Hc in He |- *. cbn in He.
    by injection He as <-.
  - unfold SlashCommands.build_command. by rewrite He.
Qed.

Lemma or_dash_text (text : string) : or_dash text <> "".
Proof. by destruct text. Qed.

Lemma field_or_dash_text (record : list (string * string)) (key : string) :
  field_or_dash record key <> "".
Proof. unfold field_or_dash. destruct (field record key); [apply or_dash_text|done]. Qed.

Lemma localize_text (m : I18n) (text : Metadata -> string) :
  (forall sub : Metadata, text sub <> "") ->
  Forall (fun l => snd l <> "") (localize toLanguage discordLocales m text).
Proof.
  intros Ht. unfold localize. induction discordLocales as [|locale locales IH]; cbn; [done|].
  destruct (sub_of toLanguage m locale); cbn; [|exact IH].
  constructor; [apply Ht|exact IH].
Qed.

Lemma slash_command_text (command : AttachedCommand) (m : I18n) (main : Metadata) :
  no_empty_text (slash_command command m main).
Proof.
  unfold no_empty_text. cbn. split; [apply or_dash_text|]. split.
  - apply localize_text. intros sub. apply or_dash_text.
  - apply Forall_map, Forall_forall. intros entry _. cbn. split; [apply or_dash_text|].
    apply localize_text. intros sub. apply field_or_dash_text.
Qed.

Lemma build_commands_total (commands : list AttachedCommand) :
  exists cs : list SlashCommand,
    build_commands commands = Some cs /\
    Forall no_empty_text cs /\
    map command_name cs = map id (filter (fun c => described c = true) commands).
Proof.
  induction commands as [|command commands (cs & Hcs & Ht & Hn)].
  - exists []. done.
  - cbn [SlashCommands.build_commands]. rewrite Hcs.
    destruct (build_command_total command) as (m & extra & _ & Hm & ->).
    destruct (main_of m) as [main|] eqn:Hmain.
    + exists (slash_command command m main :: cs). split; [done|]. split.
      * constructor; [apply slash_command_text|exact Ht].
      * rewrite filter_cons_True.
        { cbn. by rewrite Hn. }
        destruct (described command) eqn:Hd; [done|]. exfalso.
        apply collect_nil, Hm in Hd. apply main_of_none in Hd. congruence.
    + exists cs. split; [done|]. split; [exact Ht|].
      rewrite filter_cons_False; [done|].
      apply main_of_none, Hm, collect_nil in Hmain. by rewrite Hmain.
Qed.





End SlashCommandFacts.

Lemma sample_toLanguage_idempotent (l : SlashCommands.Locale) :
  SlashCommands.sample_toLanguage (SlashCommands.sample_toLanguage l) =
  SlashCommands.sample_toLanguage l.
Proof. destruct l as [|a [|b l]]; try reflexivity. cbn. by destruct l. Qed.





Lemma returned_body_clears_timer_witness :
  Commands.timer
    (self (exec (Commands.run (Commands.ping (Commands.AwaitOther 100 (Commands.Return None)) [])
                   (Commands.interaction Commands.slash_source)) (Commands.start []))) =
    Commands.timer_cleared.
Proof.
  exact (returned_body_clears_timer
           (Commands.ping (Commands.AwaitOther 100 (Commands.Return None)) [])
           Commands.slash_source None (Commands.start [])
           (exec (Commands.setTimeout 2500) (Commands.start []))
           (exec (Commands.command_execute
                    (Commands.slash_context Commands.slash_source
                       (Commands.ping (Commands.AwaitOther 100 (Commands.Return None)) []))
                    (Commands.ping (Commands.AwaitOther 100 (Commands.Return None)) []))
              (exec (Commands.setTimeout 2500) (Commands.start [])))
           (Commands.slash_context Commands.slash_source
              (Commands.ping (Commands.AwaitOther 100 (Commands.Return None)) []))
           eq_refl eq_refl).
Defined.
